(** * Dependency links and step graphs of [pkg/api/graph.go]

    A shallow embedding of the link model ([StepLink] and its
    [SatisfiedBy] relation), the release-stream naming helpers, the graph
    builder [BuildGraph] and the partial graph resolver
    [BuildPartialGraph], together with the properties stated about them.

    Go strings are byte sequences and are modelled by [string]; a
    [[]StepLink] or [[]Step] slice is a [list]; a [*StepNode] is an index
    into an explicit store of nodes, so that the identity comparison of
    [addToNode] and the sharing of one node between several parents are
    those of the program. *)

From Stdlib Require Import String Ascii Sorted.
From stdpp Require Import base list.

(** ** Link model *)

(** The closed set of link kinds.  [StepLink] is an interface in the
    source; its six implementations are the constructors.  A nil
    interface value has no method set and is not a link. *)
Inductive StepLink : Type :=
  | internalImageStreamLink (name : string)
  | internalImageStreamTagLink (name tag : string)
  | allStepsLink
  | externalImageLink (namespace name tag : string)
  | imagesReadyLink
  | rpmRepoLink.

(** [l.SatisfiedBy(other)]: the method of the receiver's kind, each a type
    switch on [other]. *)
Definition SatisfiedBy (l other : StepLink) : bool :=
  match l with
  | internalImageStreamLink name =>
      match other with
      | internalImageStreamLink name' => String.eqb name name'
      | _ => false
      end
  | internalImageStreamTagLink name tag =>
      match other with
      | internalImageStreamTagLink name' tag' =>
          String.eqb name name' && String.eqb tag tag'
      | internalImageStreamLink name' => String.eqb name name'
      | _ => false
      end
  | allStepsLink => true
  | externalImageLink namespace name tag =>
      match other with
      | externalImageLink namespace' name' tag' =>
          String.eqb name name' && String.eqb namespace namespace'
          && String.eqb tag tag'
      | _ => false
      end
  | imagesReadyLink =>
      match other with
      | imagesReadyLink => true
      | _ => false
      end
  | rpmRepoLink =>
      match other with
      | rpmRepoLink => true
      | _ => false
      end
  end.

Definition AllStepsLink : StepLink := allStepsLink.
Definition ImagesReadyLink : StepLink := imagesReadyLink.
Definition RPMRepoLink : StepLink := rpmRepoLink.

(** ** Link-set matching *)

(** The inner loop of [HasAnyLinks]: returns at the first required link
    that [candidate] satisfies. *)
Fixpoint anySatisfiedBy (steps : list StepLink) (candidate : StepLink) : bool :=
  match steps with
  | [] => false
  | step :: rest =>
      if SatisfiedBy step candidate then true else anySatisfiedBy rest candidate
  end.

Fixpoint HasAnyLinks (steps candidates : list StepLink) : bool :=
  match candidates with
  | [] => false
  | candidate :: rest =>
      if anySatisfiedBy steps candidate then true else HasAnyLinks steps rest
  end.

(** The inner loop of [HasAllLinks]: it runs over the whole haystack and
    sets [contains] whenever [hay.SatisfiedBy(needle)] holds. *)
Definition containsNeedle (haystack : list StepLink) (needle : StepLink) : bool :=
  foldl (fun contains hay => if SatisfiedBy hay needle then true else contains)
        false haystack.

Fixpoint HasAllLinks (needles haystack : list StepLink) : bool :=
  match needles with
  | [] => true
  | needle :: rest =>
      if negb (containsNeedle haystack needle) then false
      else HasAllLinks rest haystack
  end.

(** ** Naming and stream conventions *)

Local Open Scope string_scope.

(** [strings.HasPrefix] and [strings.TrimPrefix]. *)
Fixpoint HasPrefix (s prefix : string) {struct prefix} : bool :=
  match prefix with
  | EmptyString => true
  | String c prefix' =>
      match s with
      | EmptyString => false
      | String d s' => Ascii.eqb c d && HasPrefix s' prefix'
      end
  end.

(** [s[n:]] for [n <= len(s)]. *)
Fixpoint sliceFrom (n : nat) (s : string) {struct n} : string :=
  match n, s with
  | S n', String _ s' => sliceFrom n' s'
  | _, _ => s
  end.

Definition TrimPrefix (s prefix : string) : string :=
  if HasPrefix s prefix then sliceFrom (String.length prefix) s else s.

Section Naming.
(** The stream and release names are constants of the package declared
    outside [graph.go]; the development is parametric in them. *)
Variables PipelineImageStream ReleaseImageStream StableImageStream : string.
Variable LatestReleaseName : string.

(** [fmt.Sprintf("%s-%s", StableImageStream, name)] *)
Definition ReleaseStreamFor (name : string) : string :=
  if String.eqb name LatestReleaseName then StableImageStream
  else StableImageStream ++ "-" ++ name.

(** [fmt.Sprintf("%s-", StableImageStream)] is the trimmed prefix. *)
Definition ReleaseNameFrom (stream : string) : string :=
  if String.eqb stream StableImageStream then LatestReleaseName
  else TrimPrefix stream (StableImageStream ++ "-").

Definition IsReleaseStream (stream : string) : bool :=
  HasPrefix stream StableImageStream.

Definition IsReleasePayloadStream (stream : string) : bool :=
  String.eqb stream ReleaseImageStream.

Definition InternalImageLink (tag : string) : StepLink :=
  internalImageStreamTagLink PipelineImageStream tag.

Definition ReleasePayloadImageLink (tag : string) : StepLink :=
  internalImageStreamTagLink ReleaseImageStream tag.

Definition ReleaseImagesLink (name : string) : StepLink :=
  internalImageStreamLink (ReleaseStreamFor name).

Definition ReleaseImageTagLink (name tag : string) : StepLink :=
  internalImageStreamTagLink (ReleaseStreamFor name) tag.

(** [LinkForImage]; [None] is the nil link of the default case. *)
Definition LinkForImage (imageStream tag : string) : option StepLink :=
  if String.eqb imageStream PipelineImageStream then
    Some (InternalImageLink tag)
  else if IsReleaseStream imageStream then
    Some (ReleaseImagesLink (ReleaseNameFrom imageStream))
  else if IsReleasePayloadStream imageStream then
    Some (ReleasePayloadImageLink tag)
  else None.
End Naming.

Local Close Scope string_scope.

(** ** Steps and step nodes *)

(** The part of the [Step] interface that graph construction calls:
    [Name()], [Requires()] and [Creates()].  A step is immutable while a
    graph is built, so each call returns the same value. *)
Record Step : Type := mkStep {
  Name : string;
  Requires : list StepLink;
  Creates : list StepLink
}.

(** A [*StepNode] is the position of the node in the store of allocated
    nodes; two pointers are equal exactly when the positions are. *)
Abbreviation ptr := nat (only parsing).

(** [StepNode]; the field [Step] is named [NodeStep] here, the type
    already bears the name. *)
Record StepNode : Type := mkStepNode {
  NodeStep : Step;
  Children : list ptr
}.

Abbreviation Store := (list StepNode) (only parsing).

(** The loop of [addToNode] over [parent.Children]. *)
Fixpoint hasChild (children : list ptr) (child : ptr) : bool :=
  match children with
  | [] => false
  | s :: rest => if Nat.eqb s child then true else hasChild rest child
  end.

(** [addToNode(parent, child)]: the store after the call and the returned
    flag.  Both pointers come from [allNodes], so the lookup succeeds. *)
Definition addToNode (σ : Store) (parent child : ptr) : Store * bool :=
  match σ !! parent with
  | None => (σ, false)
  | Some p =>
      if hasChild (Children p) child then (σ, false)
      else (<[parent := mkStepNode (NodeStep p) (Children p ++ [child])]> σ, true)
  end.

Definition requiresAt (σ : Store) (p : ptr) : list StepLink :=
  match σ !! p with
  | Some n => Requires (NodeStep n)
  | None => []
  end.

Definition createsAt (σ : Store) (p : ptr) : list StepLink :=
  match σ !! p with
  | Some n => Creates (NodeStep n)
  | None => []
  end.

(** ** Graph builder *)

(** The first loop of [BuildGraph]: one node per step, no children. *)
Definition newNodes (steps : list Step) : Store :=
  (fun step => mkStepNode step []) <$> steps.

(** The loop over [other.Step.Creates()] for one required link. *)
Definition linkCreates (node other : ptr) (nodeRequires : StepLink)
    (st : Store * bool) : Store * bool :=
  foldl (fun st otherCreates =>
           if SatisfiedBy nodeRequires otherCreates
           then (fst (addToNode (fst st) other node), false)
           else st)
        st (createsAt (fst st) other).

(** The loop over [node.Step.Requires()] for one [other]. *)
Definition linkPair (node other : ptr) (st : Store * bool) : Store * bool :=
  foldl (fun st nodeRequires => linkCreates node other nodeRequires st)
        st (requiresAt (fst st) node).

(** The body of the loop over [node]: [isRoot] starts true and every
    [other] of [allNodes] is visited, [node] itself included. *)
Definition visitNode (allNodes : list ptr) (σ : Store) (node : ptr)
    : Store * bool :=
  foldl (fun st other => linkPair node other st) (σ, true) allNodes.

(** What [BuildGraph] leaves behind: the nodes it allocated and the
    returned slice of root pointers. *)
Record Forest : Type := mkForest {
  nodes : list StepNode;
  roots : list ptr
}.

Definition BuildGraph (steps : list Step) : Forest :=
  let allNodes := seq 0 (length steps) in
  let result :=
    foldl (fun acc node =>
             let st := visitNode allNodes (fst acc) node in
             (fst st, if snd st then snd acc ++ [node] else snd acc))
          (newNodes steps, []) allNodes in
  mkForest (fst result) (snd result).

(** ** Partial graph resolver *)

(** The index of the first name equal to [name], as found by the loop
    [for j, name := range names]. *)
Fixpoint findName (names : list string) (name : string) : option nat :=
  match names with
  | [] => None
  | n :: rest =>
      if String.eqb n name then Some 0 else S <$> findName rest name
  end.

(** The state of the name-matching loop. *)
Record Matching : Type := mkMatching {
  candidates : list bool;
  required : list StepLink;
  names : list string;
  allNames : list string
}.

(** One iteration for [steps[i]]: [append(names[:j], names[j+1:]...)]
    removes the matched name. *)
Definition matchStep (i : nat) (step : Step) (m : Matching) : Matching :=
  let allNames' := allNames m ++ [Name step] in
  match findName (names m) (Name step) with
  | None => mkMatching (candidates m) (required m) (names m) allNames'
  | Some j =>
      mkMatching (<[i := true]> (candidates m))
                 (required m ++ Requires step)
                 (take j (names m) ++ drop (S j) (names m))
                 allNames'
  end.

Fixpoint matchLoop (i : nat) (steps : list Step) (m : Matching) : Matching :=
  match steps with
  | [] => m
  | step :: rest => matchLoop (S i) rest (matchStep i step m)
  end.

(** The state of one pass of the expansion loop. *)
Record Expansion : Type := mkExpansion {
  selected : list bool;
  frontier : list StepLink;
  added : nat
}.

(** [candidates[i]] *)
Definition isCandidate (cs : list bool) (i : nat) : bool :=
  default false (cs !! i).

Definition expandStep (i : nat) (step : Step) (e : Expansion) : Expansion :=
  if isCandidate (selected e) i then e
  else if HasAnyLinks (frontier e) (Creates step) then
    mkExpansion (<[i := true]> (selected e))
                (frontier e ++ Requires step)
                (S (added e))
  else e.

Fixpoint expandPass (i : nat) (steps : list Step) (e : Expansion) : Expansion :=
  match steps with
  | [] => e
  | step :: rest => expandPass (S i) rest (expandStep i step e)
  end.

(** The [for { ... }] loop: a pass that adds nothing ends it.  [fuel]
    bounds the number of passes; [None] is a loop still running when the
    bound is reached. *)
Fixpoint expandLoop (fuel : nat) (steps : list Step)
    (cs : list bool) (req : list StepLink) : option (list bool * list StepLink) :=
  match fuel with
  | 0 => None
  | S fuel' =>
      let e := expandPass 0 steps (mkExpansion cs req 0) in
      if Nat.eqb (added e) 0 then Some (selected e, frontier e)
      else expandLoop fuel' steps (selected e) (frontier e)
  end.

(** The last loop: [targeted] collects [steps[i]] for every set
    candidate. *)
Fixpoint collectTargeted (i : nat) (cs : list bool) (steps targeted : list Step)
    : list Step :=
  match cs with
  | [] => targeted
  | candidate :: rest =>
      collectTargeted (S i) rest steps
        (if candidate
         then match steps !! i with
              | Some step => targeted ++ [step]
              | None => targeted
              end
         else targeted)
  end.

(** [strings.Join] *)
Fixpoint Join (elems : list string) (sep : string) : string :=
  match elems with
  | [] => ""%string
  | [e] => e
  | e :: rest => (e ++ sep ++ Join rest sep)%string
  end.

(** The message of the error built by [fmt.Errorf]. *)
Definition notFoundMessage (names allNames : list string) : string :=
  ("the following names were not found in the config or were duplicates: "
   ++ Join names ", " ++ " (from " ++ Join allNames ", " ++ ")")%string.

(** The two results of [BuildPartialGraph]: a forest with a nil error, or
    a nil forest with an error. *)
Inductive PartialResult : Type :=
  | Built (forest : Forest)
  | NotFound (message : string).

Definition BuildPartialGraphFuel (fuel : nat) (steps : list Step)
    (names : list string) : option PartialResult :=
  match names with
  | [] => Some (Built (BuildGraph steps))
  | _ :: _ =>
      let '(mkMatching cs req unmatched known) :=
        matchLoop 0 steps
          (mkMatching (replicate (length steps) false) [] names []) in
      match unmatched with
      | _ :: _ => Some (NotFound (notFoundMessage unmatched known))
      | [] =>
          match expandLoop fuel steps cs req with
          | None => None
          | Some (cs', _) =>
              Some (Built (BuildGraph (collectTargeted 0 cs' steps [])))
          end
      end
  end.

(** Every pass but the last selects a new step, so one pass more than
    there are steps is enough. *)
Definition BuildPartialGraph (steps : list Step) (names : list string)
    : option PartialResult :=
  BuildPartialGraphFuel (S (length steps)) steps names.

(** ** Notions used to state the properties *)

(** [other] creates a link that satisfies a link [node] requires: the
    condition under which [BuildGraph] attaches [node] below [other]. *)
Definition feedsb (other node : Step) : bool :=
  existsb (fun nodeRequires => existsb (SatisfiedBy nodeRequires) (Creates other))
          (Requires node).

(** [steps[i]] feeds [steps[j]]. *)
Definition feedsAt (steps : list Step) (i j : nat) : bool :=
  match steps !! i, steps !! j with
  | Some other, Some node => feedsb other node
  | _, _ => false
  end.

(** The nodes of a forest: the returned roots and what is found below
    them through [Children]. *)
Inductive inForest (f : Forest) : ptr -> Prop :=
  | inForest_root p : p ∈ roots f -> inForest f p
  | inForest_child p q n :
      inForest f p -> nodes f !! p = Some n -> q ∈ Children n -> inForest f q.

(** The step set of a forest. *)
Definition forestSteps (f : Forest) (s : Step) : Prop :=
  exists p n, inForest f p /\ nodes f !! p = Some n /\ NodeStep n = s.

(** How often a name occurs in a list. *)
Fixpoint occurrences (name : string) (l : list string) : nat :=
  match l with
  | [] => 0
  | n :: rest => (if String.eqb n name then 1 else 0) + occurrences name rest
  end.

(** [steps[i]] is requested by [names]: its name is among them more often
    than it is borne by the steps before it. *)
Definition requestedAt (steps : list Step) (names : list string) (i : nat) : Prop :=
  exists s, steps !! i = Some s /\
    occurrences (Name s) (Name <$> take i steps) < occurrences (Name s) names.

(** The requested steps and every step that feeds a step already
    wanted. *)
Inductive wantedAt (steps : list Step) (names : list string) : nat -> Prop :=
  | wanted_requested i : requestedAt steps names i -> wantedAt steps names i
  | wanted_feeds i j :
      wantedAt steps names j -> feedsAt steps i j = true -> wantedAt steps names i.

Definition wanted (steps : list Step) (names : list string) (s : Step) : Prop :=
  exists i, wantedAt steps names i /\ steps !! i = Some s.

(** A store that holds one node per step, node [i] with the children
    [ch i]. *)
Definition storeOf (steps : list Step) (ch : nat -> list ptr) : list StepNode :=
  imap (fun i s => mkStepNode s (ch i)) steps.

(** The children lists after [addToNode(parent, child)]. *)
Definition attach (ch : nat -> list ptr) (parent child : ptr) : nat -> list ptr :=
  fun k =>
    if Nat.eqb k parent
    then (if hasChild (ch k) child then ch k else ch k ++ [child])
    else ch k.

(** The children of node [i] among the nodes before [k], in input
    order. *)
Definition childrenUpTo (steps : list Step) (k i : nat) : list ptr :=
  List.filter (fun j => feedsAt steps i j) (seq 0 k).

(** Some step of the list feeds [steps[j]]. *)
Definition isFed (steps : list Step) (j : nat) : bool :=
  existsb (fun i => feedsAt steps i j) (seq 0 (length steps)).

Definition rootsUpTo (steps : list Step) (k : nat) : list ptr :=
  List.filter (fun j => negb (isFed steps j)) (seq 0 k).

(** The frontier holds exactly the links required by the selected
    steps. *)
Definition frontierOf (steps : list Step) (cs : list bool) (req : list StepLink) : Prop :=
  forall r, r ∈ req <->
    exists i s, isCandidate cs i = true /\ steps !! i = Some s /\ r ∈ Requires s.

(** The state of the matching loop before [steps[k]] is looked at. *)
Record matched (steps : list Step) (requested : list string)
    (k : nat) (m : Matching) : Prop := {
  matched_length : length (candidates m) = length steps;
  matched_candidates :
    forall i, isCandidate (candidates m) i = true <->
              i < k /\ requestedAt steps requested i;
  matched_names :
    forall n, occurrences n (names m)
              = occurrences n requested - occurrences n (Name <$> take k steps);
  matched_allNames : allNames m = Name <$> take k steps;
  matched_required : frontierOf steps (candidates m) (required m)
}.

(** The number of selected steps. *)
Fixpoint selectedCount (cs : list bool) : nat :=
  match cs with
  | [] => 0
  | c :: rest => (if c then 1 else 0) + selectedCount rest
  end.

(** What holds of the candidates and the frontier throughout the
    expansion. *)
Record selection (steps : list Step) (requested : list string)
    (cs : list bool) (req : list StepLink) : Prop := {
  selection_length : length cs = length steps;
  selection_wanted : forall i, isCandidate cs i = true -> wantedAt steps requested i;
  selection_requested : forall i, requestedAt steps requested i -> isCandidate cs i = true;
  selection_frontier : frontierOf steps cs req
}.

(** No step outside the selection creates a link of the frontier. *)
Definition saturatedFrom (steps : list Step) (k : nat) (cs : list bool) (req : list StepLink) : Prop :=
  forall i s, k <= i -> steps !! i = Some s ->
    isCandidate cs i = true \/ HasAnyLinks req (Creates s) = false.

(** How a run of iterations takes the state [e] to [e']. *)
Record advances (steps : list Step) (requested : list string)
    (k : nat) (e e' : Expansion) : Prop := {
  advances_selection : selection steps requested (selected e') (frontier e');
  advances_added : added e <= added e';
  advances_count :
    selectedCount (selected e') + added e = selectedCount (selected e) + added e';
  advances_idle :
    added e' = added e -> e' = e
}.

(** The steps found from a step that no step of the list feeds, along
    the feeding relation. *)
Inductive fedFromRoot (l : list Step) : Step -> Prop :=
  | fedFromRoot_root s :
      s ∈ l -> (forall t, t ∈ l -> feedsb t s = false) -> fedFromRoot l s
  | fedFromRoot_child t s :
      fedFromRoot l t -> s ∈ l -> feedsb t s = true -> fedFromRoot l s.

(** The children lists once the nodes before [m] have been compared
    with [node]. *)
Definition visitedUpTo (steps : list Step) (node : nat)
    (ch : nat -> list nat) (m : nat) : nat -> list nat :=
  fun i => if (i <? m) && feedsAt steps i node then ch i ++ [node] else ch i.

(** [text] shows [name]: the name stands in it, letter for letter. *)
Definition mentions (text name : string) : Prop :=
  exists before after, text = (before ++ name ++ after)%string.

(** ** The step graph document *)

Definition CIOperatorStepGraphJSONFilename : string :=
  "ci-operator-step-graph.json"%string.

(** [strings.Join([]string{baseJobURL, "artifacts", ...}, "/")] *)
Definition StepGraphJSONURL (baseJobURL : string) : string :=
  Join [baseJobURL; "artifacts"%string; CIOperatorStepGraphJSONFilename] "/".

(** The steps held by the roots of a forest. *)
Definition rootSteps (f : Forest) (s : Step) : Prop :=
  exists p n, p ∈ roots f /\ nodes f !! p = Some n /\ NodeStep n = s.

(** ** Steps used as examples *)

(** A step that requires the link it creates itself. *)
Definition selfFed : Step :=
  mkStep "loop"
         [internalImageStreamTagLink "pipeline" "src"]
         [internalImageStreamTagLink "pipeline" "src"].

(** Two steps, each requiring the link the other creates. *)
Definition ping : Step :=
  mkStep "ping" [imagesReadyLink] [rpmRepoLink].
Definition pong : Step :=
  mkStep "pong" [rpmRepoLink] [imagesReadyLink].

(** A step that builds the [src] image and a test that needs it. *)
Definition srcStep : Step :=
  mkStep "src" [] [internalImageStreamTagLink "pipeline" "src"].
Definition unitStep : Step :=
  mkStep "unit" [internalImageStreamTagLink "pipeline" "src"] [].

(** * Properties *)

(** ** Links *)

Lemma SatisfiedBy_AllStepsLink_only (l : StepLink) :
  SatisfiedBy l AllStepsLink = true -> l = AllStepsLink.
Proof. destruct l; simpl; intros H; try discriminate H; reflexivity. Qed.

(** C5: a tag-level link over stream [n] is satisfied by the stream-level
    link over [n], and the stream-level link is not satisfied by the
    tag-level one. *)
Theorem stream_tag_satisfiability_directional (n t : string) :
  SatisfiedBy (internalImageStreamTagLink n t) (internalImageStreamLink n) = true
  /\ SatisfiedBy (internalImageStreamLink n) (internalImageStreamTagLink n t) = false.
Proof.
  split; simpl; [apply String.eqb_refl | reflexivity].
Qed.

(** C6: the wildcard link is satisfied by every link, and a link that is
    not the wildcard is not satisfied by the wildcard. *)
Theorem AllStepsLink_absorbs (X L : StepLink) :
  SatisfiedBy AllStepsLink X = true
  /\ (L <> AllStepsLink -> SatisfiedBy L AllStepsLink = false).
Proof.
  split; [reflexivity |].
  intros HL. destruct (SatisfiedBy L AllStepsLink) eqn:E; [| reflexivity].
  destruct HL. now apply SatisfiedBy_AllStepsLink_only.
Qed.

Lemma AllStepsLink_absorbs_witness :
  let X := externalImageLink "ocp" "builder" "golang" in
  let L := internalImageStreamTagLink "pipeline" "src" in
  L <> AllStepsLink
  /\ SatisfiedBy AllStepsLink X = true
  /\ SatisfiedBy L AllStepsLink = false.
Proof.
  intros X L.
  assert (HL : L <> AllStepsLink) by discriminate.
  split; [exact HL |].
  destruct (AllStepsLink_absorbs X L) as [HX HLA].
  split; [exact HX | exact (HLA HL)].
Defined.

(** ** Link sets *)

Lemma anySatisfiedBy_true (steps : list StepLink) (candidate : StepLink) :
  anySatisfiedBy steps candidate = true <->
  exists step, step ∈ steps /\ SatisfiedBy step candidate = true.
Proof.
  induction steps as [| s steps IH]; simpl.
  - split; [discriminate | intros (x & Hx & _); inversion Hx].
  - destruct (SatisfiedBy s candidate) eqn:E.
    + split; [intros _ | reflexivity]. exists s. split; [left | exact E].
    + rewrite IH. split.
      * intros (x & Hx & Hs). exists x. split; [now right | exact Hs].
      * intros (x & Hx & Hs). apply elem_of_cons in Hx as [-> | Hx].
        -- congruence.
        -- eauto.
Qed.

Lemma HasAnyLinks_true (steps candidates : list StepLink) :
  HasAnyLinks steps candidates = true <->
  exists step candidate,
    step ∈ steps /\ candidate ∈ candidates /\ SatisfiedBy step candidate = true.
Proof.
  induction candidates as [| c candidates IH]; simpl.
  - split; [discriminate | intros (s & x & _ & Hx & _); inversion Hx].
  - destruct (anySatisfiedBy steps c) eqn:E.
    + split; [intros _ | reflexivity].
      apply anySatisfiedBy_true in E as (s & Hs & Hsc).
      exists s, c. repeat split; [exact Hs | left | exact Hsc].
    + rewrite IH. split.
      * intros (s & x & Hs & Hx & Hsx). exists s, x.
        repeat split; [exact Hs | now right | exact Hsx].
      * intros (s & x & Hs & Hx & Hsx).
        apply elem_of_cons in Hx as [-> | Hx]; [| eauto].
        assert (anySatisfiedBy steps c = true) as Habs
          by (apply anySatisfiedBy_true; eauto).
        congruence.
Qed.

Lemma containsNeedle_fold (haystack : list StepLink) (needle : StepLink) (b : bool) :
  foldl (fun contains hay => if SatisfiedBy hay needle then true else contains)
        b haystack
  = b || existsb (fun hay => SatisfiedBy hay needle) haystack.
Proof.
  revert b. induction haystack as [| h haystack IH]; intros b; simpl.
  - now rewrite orb_false_r.
  - rewrite IH. destruct (SatisfiedBy h needle), b; reflexivity.
Qed.

(** What the loop of [HasAllLinks] decides: the receiver of [SatisfiedBy]
    is the member of the haystack, the argument is the needle. *)
Lemma HasAllLinks_true (needles haystack : list StepLink) :
  HasAllLinks needles haystack = true <->
  forall needle, needle ∈ needles ->
    exists hay, hay ∈ haystack /\ SatisfiedBy hay needle = true.
Proof.
  induction needles as [| n needles IH]; simpl.
  - split; [intros _ x Hx; inversion Hx | reflexivity].
  - unfold containsNeedle. rewrite containsNeedle_fold. simpl.
    destruct (existsb (fun hay => SatisfiedBy hay n) haystack) eqn:E; simpl.
    + rewrite IH. apply existsb_exists in E as (h & Hh & Hhn).
      apply list_elem_of_In in Hh.
      split.
      * intros H x Hx. apply elem_of_cons in Hx as [-> | Hx]; eauto.
      * intros H x Hx. apply H. now right.
    + split; [discriminate |]. intros H.
      destruct (H n) as (h & Hh & Hhn); [left |].
      assert (existsb (fun hay => SatisfiedBy hay n) haystack = true) as Habs.
      { apply existsb_exists. exists h. split; [now apply list_elem_of_In | exact Hhn]. }
      congruence.
Qed.

(** C2: the needle is a tag of the pipeline stream and the haystack holds
    the link of the whole stream.  The needle is satisfied by the member
    of the haystack, and [HasAllLinks] answers false: it asks whether the
    member of the haystack is satisfied by the needle. *)
Theorem HasAllLinks_tag_needle_stream_haystack :
  let needles := [internalImageStreamTagLink "pipeline" "src"] in
  let haystack := [internalImageStreamLink "pipeline"] in
  (forall needle, needle ∈ needles ->
     exists hay, hay ∈ haystack /\ SatisfiedBy needle hay = true)
  /\ HasAllLinks needles haystack = false.
Proof.
  intros needles haystack. split; [| reflexivity].
  intros needle Hn. apply list_elem_of_singleton in Hn as ->.
  exists (internalImageStreamLink "pipeline"). split; [left | reflexivity].
Qed.

(** ** Release names and streams *)

Lemma HasPrefix_append (p s : string) : HasPrefix (p ++ s) p = true.
Proof.
  induction p as [| c p IH]; simpl; [reflexivity |].
  now rewrite Ascii.eqb_refl, IH.
Qed.

Lemma sliceFrom_append (p s : string) : sliceFrom (String.length p) (p ++ s) = s.
Proof.
  induction p as [| c p IH]; simpl; [now destruct s | exact IH].
Qed.

Lemma TrimPrefix_append (p s : string) : TrimPrefix (p ++ s) p = s.
Proof.
  unfold TrimPrefix. now rewrite HasPrefix_append, sliceFrom_append.
Qed.

Lemma string_append_assoc (a b c : string) : (a ++ (b ++ c) = (a ++ b) ++ c)%string.
Proof. induction a as [| x a IH]; simpl; [reflexivity | now rewrite IH]. Qed.

Lemma string_append_length (a b : string) :
  String.length (a ++ b) = String.length a + String.length b.
Proof. induction a as [| x a IH]; simpl; [reflexivity | now rewrite IH]. Qed.

Section NamingFacts.
Variables StableImageStream LatestReleaseName : string.

Lemma ReleaseStreamFor_other_not_base (name : string) :
  String.eqb (StableImageStream ++ "-" ++ name) StableImageStream = false.
Proof.
  apply String.eqb_neq. intros H.
  apply (f_equal String.length) in H.
  rewrite string_append_length in H. simpl in H. lia.
Qed.

End NamingFacts.

(** ** The store of nodes *)

Lemma hasChild_true (children : list nat) (child : nat) :
  hasChild children child = true <-> child ∈ children.
Proof.
  induction children as [| s children IH]; simpl.
  - split; [discriminate | intros H; inversion H].
  - destruct (Nat.eqb s child) eqn:E.
    + apply Nat.eqb_eq in E as ->. split; [intros _; left | reflexivity].
    + apply Nat.eqb_neq in E. rewrite IH. split; [now right |].
      intros H. apply elem_of_cons in H as [-> | H]; [congruence | exact H].
Qed.

Lemma hasChild_snoc (children : list nat) (child : nat) :
  hasChild (children ++ [child]) child = true.
Proof. apply hasChild_true, elem_of_app. right. left. Qed.

Lemma storeOf_lookup (steps : list Step) (ch : nat -> list nat) (i : nat) :
  storeOf steps ch !! i = (fun s => mkStepNode s (ch i)) <$> steps !! i.
Proof. unfold storeOf. apply list_lookup_imap. Qed.

Lemma storeOf_length (steps : list Step) (ch : nat -> list nat) :
  length (storeOf steps ch) = length steps.
Proof. unfold storeOf. apply length_imap. Qed.

Lemma storeOf_ext (steps : list Step) (ch ch' : nat -> list nat) :
  (forall i, i < length steps -> ch i = ch' i) ->
  storeOf steps ch = storeOf steps ch'.
Proof.
  intros H. unfold storeOf. apply imap_ext. intros i s Hi. simpl.
  rewrite (H i); [reflexivity |]. apply lookup_lt_is_Some. eauto.
Qed.

Lemma attach_idem (ch : nat -> list nat) (parent child k : nat) :
  attach (attach ch parent child) parent child k = attach ch parent child k.
Proof.
  unfold attach. destruct (Nat.eqb k parent); [| reflexivity].
  destruct (hasChild (ch k) child) eqn:E.
  - now rewrite E.
  - now rewrite hasChild_snoc.
Qed.

Lemma addToNode_storeOf (steps : list Step) (ch : nat -> list nat)
    (parent child : nat) :
  parent < length steps ->
  fst (addToNode (storeOf steps ch) parent child)
  = storeOf steps (attach ch parent child).
Proof.
  intros Hlt. apply lookup_lt_is_Some in Hlt as [s Hs].
  unfold addToNode. rewrite storeOf_lookup, Hs. simpl.
  destruct (hasChild (ch parent) child) eqn:E; simpl.
  - apply storeOf_ext. intros i _. unfold attach.
    destruct (Nat.eqb i parent) eqn:Ei; [| reflexivity].
    apply Nat.eqb_eq in Ei as ->. now rewrite E.
  - apply list_eq. intros i.
    rewrite list_lookup_insert, !storeOf_lookup, storeOf_length.
    unfold attach.
    destruct (decide (parent = i ∧ parent < length steps)) as [[-> _] | Hn].
    + rewrite Hs, Nat.eqb_refl, E. reflexivity.
    + destruct (Nat.eqb i parent) eqn:Ei; [| reflexivity].
      apply Nat.eqb_eq in Ei as ->. destruct Hn. split; [reflexivity |].
      apply lookup_lt_is_Some. eauto.
Qed.

Lemma createsAt_storeOf (steps : list Step) (ch : nat -> list nat) (p : nat) (s : Step) :
  steps !! p = Some s -> createsAt (storeOf steps ch) p = Creates s.
Proof. intros H. unfold createsAt. now rewrite storeOf_lookup, H. Qed.

Lemma requiresAt_storeOf (steps : list Step) (ch : nat -> list nat) (p : nat) (s : Step) :
  steps !! p = Some s -> requiresAt (storeOf steps ch) p = Requires s.
Proof. intros H. unfold requiresAt. now rewrite storeOf_lookup, H. Qed.

(** ** The loops of [BuildGraph] *)

Section Linking.
Variable steps : list Step.
Variables node other : nat.
Variables sn so : Step.
Hypothesis Hnode : steps !! node = Some sn.
Hypothesis Hother : steps !! other = Some so.

Lemma other_allocated : other < length steps.
Proof. apply lookup_lt_is_Some. eauto. Qed.

Lemma linkCreates_fold (r : StepLink) (cs : list StepLink) :
  forall (ch : nat -> list nat) (b : bool),
  foldl (fun st otherCreates =>
           if SatisfiedBy r otherCreates
           then (fst (addToNode (fst st) other node), false)
           else st)
        (storeOf steps ch, b) cs
  = if existsb (SatisfiedBy r) cs
    then (storeOf steps (attach ch other node), false)
    else (storeOf steps ch, b).
Proof.
  induction cs as [| c cs IH]; intros ch b; simpl; [reflexivity |].
  destruct (SatisfiedBy r c) eqn:E; simpl; [| apply IH].
  rewrite addToNode_storeOf by apply other_allocated.
  rewrite IH. destruct (existsb (SatisfiedBy r) cs); [| reflexivity].
  f_equal. apply storeOf_ext. intros i _. apply attach_idem.
Qed.

Lemma linkCreates_storeOf (r : StepLink) (ch : nat -> list nat) (b : bool) :
  linkCreates node other r (storeOf steps ch, b)
  = if existsb (SatisfiedBy r) (Creates so)
    then (storeOf steps (attach ch other node), false)
    else (storeOf steps ch, b).
Proof.
  unfold linkCreates. simpl fst.
  rewrite (createsAt_storeOf _ _ _ _ Hother). apply linkCreates_fold.
Qed.

Lemma linkPair_fold (rs : list StepLink) :
  forall (ch : nat -> list nat) (b : bool),
  foldl (fun st nodeRequires => linkCreates node other nodeRequires st)
        (storeOf steps ch, b) rs
  = if existsb (fun r => existsb (SatisfiedBy r) (Creates so)) rs
    then (storeOf steps (attach ch other node), false)
    else (storeOf steps ch, b).
Proof.
  induction rs as [| r rs IH]; intros ch b; simpl; [reflexivity |].
  rewrite linkCreates_storeOf.
  destruct (existsb (SatisfiedBy r) (Creates so)); simpl; [| apply IH].
  rewrite IH. destruct (existsb _ rs); [| reflexivity].
  f_equal. apply storeOf_ext. intros i _. apply attach_idem.
Qed.

(** The two inner loops attach [node] below [other] and clear [isRoot]
    exactly when [other] feeds [node]. *)
Lemma linkPair_storeOf (ch : nat -> list nat) (b : bool) :
  linkPair node other (storeOf steps ch, b)
  = if feedsb so sn
    then (storeOf steps (attach ch other node), false)
    else (storeOf steps ch, b).
Proof.
  unfold linkPair. simpl fst.
  rewrite (requiresAt_storeOf _ _ _ _ Hnode). apply linkPair_fold.
Qed.
End Linking.

Section Visiting.
Variable steps : list Step.
Variable node : nat.
Variable sn : Step.
Hypothesis Hnode : steps !! node = Some sn.

Lemma visitNode_prefix (ch : nat -> list nat) (m : nat) :
  (forall i, node ∉ ch i) ->
  m <= length steps ->
  foldl (fun st other => linkPair node other st) (storeOf steps ch, true) (seq 0 m)
  = (storeOf steps (visitedUpTo steps node ch m),
     negb (existsb (fun i => feedsAt steps i node) (seq 0 m))).
Proof.
  intros Hfresh. induction m as [| m IH]; intros Hm.
  - simpl. f_equal.
  - rewrite seq_S, foldl_app, IH by lia. simpl.
    destruct (lookup_lt_is_Some_2 steps m) as [so Hso]; [lia |].
    rewrite (linkPair_storeOf steps node m sn so Hnode Hso).
    assert (Hfeeds : feedsAt steps m node = feedsb so sn).
    { unfold feedsAt. now rewrite Hso, Hnode. }
    rewrite existsb_app. simpl. rewrite orb_false_r, Hfeeds.
    destruct (feedsb so sn) eqn:E.
    + rewrite orb_true_r. simpl. f_equal.
      apply storeOf_ext. intros i _. unfold attach, visitedUpTo.
      destruct (Nat.eqb i m) eqn:Ei.
      * apply Nat.eqb_eq in Ei as ->.
        rewrite Nat.ltb_irrefl. simpl.
        assert ((m <? S m) = true) as -> by (apply Nat.ltb_lt; lia).
        rewrite Hfeeds. simpl.
        destruct (hasChild (ch m) node) eqn:Ec; [| reflexivity].
        apply hasChild_true in Ec. now destruct (Hfresh m).
      * apply Nat.eqb_neq in Ei.
        assert ((i <? S m) = (i <? m)) as ->; [| reflexivity].
        destruct (Nat.ltb_spec i m), (Nat.ltb_spec i (S m)); try reflexivity; lia.
    + rewrite orb_false_r. f_equal.
      apply storeOf_ext. intros i _. unfold visitedUpTo.
      destruct (Nat.eq_dec i m) as [-> | Ei].
      * now rewrite Hfeeds, !andb_false_r.
      * assert ((i <? S m) = (i <? m)) as ->; [| reflexivity].
        destruct (Nat.ltb_spec i m), (Nat.ltb_spec i (S m)); try reflexivity; lia.
Qed.

(** One turn of the loop over [node], started with the children found
    for the nodes before it. *)
Lemma visitNode_storeOf :
  visitNode (seq 0 (length steps)) (storeOf steps (childrenUpTo steps node)) node
  = (storeOf steps (childrenUpTo steps (S node)), negb (isFed steps node)).
Proof.
  unfold visitNode. rewrite visitNode_prefix; [| | lia].
  - f_equal. apply storeOf_ext. intros i Hi. unfold visitedUpTo, childrenUpTo.
    rewrite seq_S, List.filter_app. simpl.
    assert ((i <? length steps) = true) as -> by now apply Nat.ltb_lt.
    simpl. destruct (feedsAt steps i node); [reflexivity |].
    now rewrite app_nil_r.
  - intros i Hin. unfold childrenUpTo in Hin.
    apply list_elem_of_In, filter_In in Hin as [Hin _].
    apply in_seq in Hin. lia.
Qed.
End Visiting.

Lemma newNodes_storeOf (steps : list Step) :
  newNodes steps = storeOf steps (childrenUpTo steps 0).
Proof.
  apply list_eq. intros i. unfold newNodes.
  now rewrite list_lookup_fmap, storeOf_lookup.
Qed.

Lemma BuildGraph_prefix (steps : list Step) (k : nat) :
  k <= length steps ->
  foldl (fun acc node =>
           let st := visitNode (seq 0 (length steps)) (fst acc) node in
           (fst st, if snd st then snd acc ++ [node] else snd acc))
        (newNodes steps, []) (seq 0 k)
  = (storeOf steps (childrenUpTo steps k), rootsUpTo steps k).
Proof.
  induction k as [| k IH]; intros Hk.
  - simpl. now rewrite newNodes_storeOf.
  - rewrite seq_S, foldl_app, IH by lia. simpl.
    destruct (lookup_lt_is_Some_2 steps k) as [sk Hsk]; [lia |].
    rewrite (visitNode_storeOf steps k sk Hsk). simpl. f_equal.
    unfold rootsUpTo. rewrite seq_S, List.filter_app. simpl.
    destruct (isFed steps k); simpl; [now rewrite app_nil_r | reflexivity].
Qed.

(** The forest of [BuildGraph] in closed form: node [i] holds [steps[i]]
    and, in input order, every node its step feeds; the roots are, in
    input order, the nodes no step feeds. *)
Lemma BuildGraph_closed (steps : list Step) :
  BuildGraph steps
  = mkForest (storeOf steps (childrenUpTo steps (length steps)))
             (rootsUpTo steps (length steps)).
Proof.
  unfold BuildGraph. now rewrite BuildGraph_prefix.
Qed.

(** ** Edges and roots of the built forest *)

Lemma feedsb_true (other node : Step) :
  feedsb other node = true <->
  exists r c, r ∈ Requires node /\ c ∈ Creates other /\ SatisfiedBy r c = true.
Proof.
  unfold feedsb. rewrite existsb_exists. split.
  - intros (r & Hr & Hc). apply existsb_exists in Hc as (c & Hc & Hrc).
    exists r, c. rewrite !list_elem_of_In. auto.
  - intros (r & c & Hr & Hc & Hrc). exists r.
    rewrite list_elem_of_In in Hr. split; [exact Hr |].
    apply existsb_exists. exists c. rewrite list_elem_of_In in Hc. auto.
Qed.

Lemma feedsAt_true (steps : list Step) (i j : nat) :
  feedsAt steps i j = true <->
  exists other node,
    steps !! i = Some other /\ steps !! j = Some node /\ feedsb other node = true.
Proof.
  unfold feedsAt. split.
  - destruct (steps !! i) as [o |]; [| discriminate].
    destruct (steps !! j) as [n |]; [| discriminate]. eauto.
  - intros (o & n & -> & -> & H). exact H.
Qed.

Lemma feedsAt_lt (steps : list Step) (i j : nat) :
  feedsAt steps i j = true -> i < length steps /\ j < length steps.
Proof.
  intros (o & n & Ho & Hn & _)%feedsAt_true.
  split; apply lookup_lt_is_Some; eauto.
Qed.

Lemma isFed_true (steps : list Step) (j : nat) :
  isFed steps j = true <-> exists i, feedsAt steps i j = true.
Proof.
  unfold isFed. rewrite existsb_exists. split.
  - intros (i & _ & H). eauto.
  - intros (i & H). exists i. split; [| exact H].
    apply in_seq. apply feedsAt_lt in H. lia.
Qed.

Lemma isFed_false (steps : list Step) (j : nat) :
  isFed steps j = false <-> forall i, feedsAt steps i j = false.
Proof.
  split.
  - intros H i. destruct (feedsAt steps i j) eqn:E; [| reflexivity].
    assert (isFed steps j = true) by (apply isFed_true; eauto). congruence.
  - intros H. destruct (isFed steps j) eqn:E; [| reflexivity].
    apply isFed_true in E as (i & Hi). rewrite H in Hi. discriminate.
Qed.

Lemma elem_of_childrenUpTo (steps : list Step) (i j : nat) :
  j ∈ childrenUpTo steps (length steps) i <-> feedsAt steps i j = true.
Proof.
  unfold childrenUpTo. rewrite list_elem_of_In, filter_In, in_seq. split.
  - now intros [_ H].
  - intros H. split; [| exact H]. apply feedsAt_lt in H. lia.
Qed.

Lemma elem_of_rootsUpTo (steps : list Step) (j : nat) :
  j ∈ rootsUpTo steps (length steps) <-> j < length steps /\ isFed steps j = false.
Proof.
  unfold rootsUpTo. rewrite list_elem_of_In, filter_In, in_seq, negb_true_iff.
  split; intros [H1 H2]; (split; [lia | exact H2]).
Qed.

Lemma BuildGraph_node (steps : list Step) (i : nat) (n : StepNode) :
  nodes (BuildGraph steps) !! i = Some n <->
  exists s, steps !! i = Some s
            /\ n = mkStepNode s (childrenUpTo steps (length steps) i).
Proof.
  rewrite BuildGraph_closed. simpl. rewrite storeOf_lookup.
  destruct (steps !! i) as [s |]; simpl; split.
  - intros [= <-]. eauto.
  - intros (s' & [= <-] & ->). reflexivity.
  - discriminate.
  - intros (s' & [=] & _).
Qed.

Lemma BuildGraph_roots (steps : list Step) (j : nat) :
  j ∈ roots (BuildGraph steps) <->
  j < length steps /\ forall i, feedsAt steps i j = false.
Proof.
  rewrite BuildGraph_closed. simpl.
  now rewrite elem_of_rootsUpTo, isFed_false.
Qed.

Lemma BuildGraph_children (steps : list Step) (i j : nat) (n : StepNode) :
  nodes (BuildGraph steps) !! i = Some n ->
  j ∈ Children n <-> feedsAt steps i j = true.
Proof.
  intros (s & _ & ->)%BuildGraph_node. simpl. apply elem_of_childrenUpTo.
Qed.

Lemma childrenUpTo_NoDup (steps : list Step) (k i : nat) :
  NoDup (childrenUpTo steps k i).
Proof.
  apply NoDup_ListNoDup. unfold childrenUpTo.
  apply List.NoDup_filter, NoDup_ListNoDup, NoDup_seq.
Qed.

Lemma inForest_no_roots (f : Forest) (p : nat) :
  roots f = [] -> ~ inForest f p.
Proof.
  intros Hr H. induction H as [p Hp | p q n _ IH _ _]; [| exact IH].
  rewrite Hr in Hp. inversion Hp.
Qed.

(** C1, as stated, fails: the only step of the set requires what it
    creates itself; no other step feeds it, and it is not a root and is
    its own child. *)
Lemma BuildGraph_self_pair_compared :
  let steps := [selfFed] in
  (forall i, i <> 0 -> feedsAt steps i 0 = false)
  /\ (0 ∉ roots (BuildGraph steps))
  /\ exists n, nodes (BuildGraph steps) !! 0 = Some n /\ 0 ∈ Children n.
Proof.
  intros steps. split; [| split].
  - intros [| i] Hi; [congruence | reflexivity].
  - intros H. inversion H.
  - eexists. split; [reflexivity |]. left.
Qed.

(** C1, amended: [BuildGraph] compares every ordered pair of nodes, a node
    with itself included.  A node is among the children of [other] exactly
    when [other] creates a link that satisfies a link the node requires,
    and it is a root exactly when no step of the set, itself included,
    does; so a step fed by its own created link is not a root and is among
    its own children. *)
Theorem BuildGraph_compares_all_pairs (steps : list Step) :
  (forall i j n, nodes (BuildGraph steps) !! i = Some n ->
                 (j ∈ Children n <-> feedsAt steps i j = true))
  /\ (forall j, j ∈ roots (BuildGraph steps) <->
                j < length steps /\ forall i, feedsAt steps i j = false)
  /\ (forall j, feedsAt steps j j = true ->
                (j ∉ roots (BuildGraph steps))
                /\ exists n, nodes (BuildGraph steps) !! j = Some n
                             /\ j ∈ Children n).
Proof.
  split; [| split].
  - intros i j n Hn. now apply BuildGraph_children.
  - apply BuildGraph_roots.
  - intros j Hj. split.
    + intros [_ H]%BuildGraph_roots. rewrite H in Hj. discriminate.
    + destruct (feedsAt_lt _ _ _ Hj) as [Hlt _].
      apply lookup_lt_is_Some in Hlt as [s Hs].
      eexists. split.
      * apply BuildGraph_node. eauto.
      * simpl. now apply elem_of_childrenUpTo.
Qed.

Lemma BuildGraph_compares_all_pairs_witness :
  let steps := [selfFed] in
  feedsAt steps 0 0 = true
  /\ (0 ∉ roots (BuildGraph steps))
  /\ exists n, nodes (BuildGraph steps) !! 0 = Some n /\ 0 ∈ Children n.
Proof.
  intros steps.
  assert (H : feedsAt steps 0 0 = true) by reflexivity.
  split; [exact H |].
  destruct (BuildGraph_compares_all_pairs steps) as (_ & _ & Hself).
  exact (Hself 0 H).
Defined.

(** C8: in the forest of [BuildGraph] no node has the same child twice
    in its [Children], children being compared as pointers. *)
Theorem BuildGraph_no_duplicate_children (steps : list Step) :
  Forall (fun n => NoDup (Children n)) (nodes (BuildGraph steps)).
Proof.
  apply Forall_lookup. intros i n (s & _ & ->)%BuildGraph_node.
  simpl. apply childrenUpTo_NoDup.
Qed.

(** C10: there is a non-empty list of steps, each fed by another step of
    the list, for which [BuildGraph] returns no root, so that no step is
    in the returned forest. *)
Theorem BuildGraph_empty_forest :
  exists steps : list Step,
    steps <> []
    /\ (forall j, j < length steps -> exists i, i <> j /\ feedsAt steps i j = true)
    /\ roots (BuildGraph steps) = []
    /\ forall s, ~ forestSteps (BuildGraph steps) s.
Proof.
  exists [ping; pong]. split; [discriminate |]. split; [| split].
  - intros [| [| j]] Hj; simpl in Hj; [exists 1 | exists 0 | lia];
      (split; [lia | reflexivity]).
  - reflexivity.
  - intros s (p & n & Hp & _). revert Hp. now apply inForest_no_roots.
Qed.

(** ** Matching the requested names *)

Lemma occurrences_app (n : string) (l k : list string) :
  occurrences n (l ++ k) = occurrences n l + occurrences n k.
Proof. induction l as [| x l IH]; simpl; [reflexivity | rewrite IH; lia]. Qed.

Lemma occurrences_zero_nil (l : list string) :
  (forall n, occurrences n l = 0) -> l = [].
Proof.
  destruct l as [| x l]; [reflexivity |]. intros H. specialize (H x).
  simpl in H. rewrite String.eqb_refl in H. discriminate.
Qed.

Lemma findName_None (l : list string) (n : string) :
  findName l n = None <-> occurrences n l = 0.
Proof.
  induction l as [| x l IH]; simpl; [tauto |].
  destruct (String.eqb x n); simpl.
  - split; discriminate.
  - rewrite <- IH. destruct (findName l n); simpl; split; congruence.
Qed.

(** Removing the name found at [j] takes one occurrence of it away. *)
Lemma findName_Some (l : list string) (n : string) (j : nat) :
  findName l n = Some j ->
  forall n', occurrences n' (take j l ++ drop (S j) l)
             = occurrences n' l - (if String.eqb n n' then 1 else 0).
Proof.
  revert j. induction l as [| x l IH]; intros j; simpl; [discriminate |].
  destruct (String.eqb x n) eqn:E.
  - intros [= <-] n'. simpl. rewrite drop_0.
    apply String.eqb_eq in E as ->. destruct (String.eqb n n'); lia.
  - destruct (findName l n) as [j' |] eqn:F; simpl; [| discriminate].
    intros [= <-] n'. simpl. rewrite (IH j' eq_refl n').
    destruct (String.eqb n n') eqn:E'; [| lia].
    apply String.eqb_eq in E' as <-. rewrite E. simpl.
    assert (occurrences n l <> 0) by (rewrite <- findName_None; congruence).
    lia.
Qed.

Lemma isCandidate_insert (cs : list bool) (i j : nat) :
  i < length cs ->
  isCandidate (<[i := true]> cs) j = if Nat.eqb j i then true else isCandidate cs j.
Proof.
  intros Hi. unfold isCandidate. rewrite list_lookup_insert.
  destruct (Nat.eqb_spec j i) as [-> | Hne].
  - now rewrite decide_True by auto.
  - now rewrite decide_False by (intros [? _]; congruence).
Qed.

Lemma isCandidate_lt (cs : list bool) (i : nat) :
  isCandidate cs i = true -> i < length cs.
Proof.
  unfold isCandidate. intros H. apply lookup_lt_is_Some.
  destruct (cs !! i); [eauto | discriminate].
Qed.

Lemma frontierOf_select (steps : list Step) (cs : list bool) (req : list StepLink)
    (i : nat) (s : Step) :
  i < length cs -> steps !! i = Some s ->
  frontierOf steps cs req ->
  frontierOf steps (<[i := true]> cs) (req ++ Requires s).
Proof.
  intros Hi Hs Hf r. rewrite elem_of_app, (Hf r). split.
  - intros [(j & t & Hj & Ht & Hr) | Hr].
    + exists j, t. rewrite isCandidate_insert by exact Hi.
      destruct (Nat.eqb j i); auto.
    + exists i, s. rewrite isCandidate_insert, Nat.eqb_refl by exact Hi. auto.
  - intros (j & t & Hj & Ht & Hr).
    rewrite isCandidate_insert in Hj by exact Hi.
    destruct (Nat.eqb_spec j i) as [-> | Hne].
    + right. congruence.
    + left. eauto.
Qed.

Section Matching.
Variable steps : list Step.
Variable requested : list string.

Lemma matched_start :
  matched steps requested 0 (mkMatching (replicate (length steps) false) [] requested []).
Proof.
  split; simpl.
  - apply length_replicate.
  - intros i. split; [| lia]. unfold isCandidate.
    destruct (replicate (length steps) false !! i) as [b |] eqn:E; [| discriminate].
    apply lookup_replicate in E as [-> _]. discriminate.
  - intros n. lia.
  - reflexivity.
  - intros r. split; [intros H; inversion H |].
    intros (i & s & Hi & _). unfold isCandidate in Hi.
    destruct (replicate (length steps) false !! i) as [b |] eqn:E; [| discriminate].
    apply lookup_replicate in E as [-> _]. discriminate.
Qed.

Lemma matched_step (k : nat) (s : Step) (m : Matching) :
  steps !! k = Some s -> matched steps requested k m -> matched steps requested (S k) (matchStep k s m).
Proof.
  intros Hs [Hlen Hcs Hnames Hall Hreq].
  assert (Hk : k < length steps) by (apply lookup_lt_is_Some; eauto).
  assert (Htake : Name <$> take (S k) steps = (Name <$> take k steps) ++ [Name s]).
  { rewrite (take_S_r _ _ _ Hs), fmap_app. reflexivity. }
  assert (Hreqd : requestedAt steps requested k <->
                  occurrences (Name s) (names m) <> 0).
  { rewrite Hnames. unfold requestedAt. split.
    - intros (s' & Hs' & Hlt). assert (s' = s) as -> by congruence. lia.
    - intros H. exists s. split; [exact Hs | lia]. }
  unfold matchStep.
  destruct (findName (names m) (Name s)) as [j |] eqn:F.
  - assert (Hin : requestedAt steps requested k).
    { apply Hreqd. rewrite <- findName_None. congruence. }
    split; simpl.
    + now rewrite length_insert.
    + intros i. rewrite isCandidate_insert by lia.
      destruct (Nat.eqb_spec i k) as [-> | Hne].
      * split; [intros _; split; [lia | exact Hin] | reflexivity].
      * rewrite Hcs. split; intros [H1 H2]; (split; [lia | exact H2]).
    + intros n. rewrite (findName_Some _ _ _ F), Hnames, Htake, occurrences_app.
      simpl. destruct (String.eqb (Name s) n); lia.
    + now rewrite Hall, Htake.
    + apply frontierOf_select; [lia | exact Hs | exact Hreq].
  - assert (Hout : ~ requestedAt steps requested k).
    { rewrite Hreqd. apply findName_None in F. lia. }
    split; simpl.
    + exact Hlen.
    + intros i. rewrite Hcs. split.
      * intros [H1 H2]. split; [lia | exact H2].
      * intros [H1 H2]. split; [| exact H2].
        destruct (Nat.eq_dec i k) as [-> | Hne]; [contradiction | lia].
    + intros n. rewrite Hnames, Htake, occurrences_app. simpl.
      apply findName_None in F. rewrite Hnames in F.
      destruct (String.eqb (Name s) n) eqn:E; [| lia].
      apply String.eqb_eq in E as <-. lia.
    + now rewrite Hall, Htake.
    + exact Hreq.
Qed.

Lemma matched_loop (rest : list Step) :
  forall (k : nat) (m : Matching),
  drop k steps = rest -> matched steps requested k m ->
  matched steps requested (length steps) (matchLoop k rest m).
Proof.
  induction rest as [| s rest IH]; intros k m Hdrop Hm; simpl.
  - assert (length steps <= k) as Hk.
    { apply (f_equal length) in Hdrop. rewrite length_drop in Hdrop.
      simpl in Hdrop. lia. }
    destruct Hm as [Hlen Hcs Hnames Hall Hreq].
    rewrite take_ge in Hnames, Hall by lia.
    split; try assumption.
    + intros i. rewrite Hcs. split; intros [H1 H2]; (split; [| exact H2]).
      * destruct H2 as (s & Hs & _). apply lookup_lt_is_Some. eauto.
      * lia.
    + now rewrite firstn_all.
    + now rewrite firstn_all.
  - assert (Hs : steps !! k = Some s).
    { rewrite <- (Nat.add_0_r k), <- lookup_drop, Hdrop. reflexivity. }
    apply IH; [| now apply matched_step].
    rewrite (drop_S _ _ _ Hs) in Hdrop. congruence.
Qed.

Lemma matchLoop_matched :
  matched steps requested (length steps)
    (matchLoop 0 steps
       (mkMatching (replicate (length steps) false) [] requested [])).
Proof. apply matched_loop; [apply drop_0 | apply matched_start]. Qed.
End Matching.

(** ** Expanding the selection *)

Lemma selectedCount_le (cs : list bool) : selectedCount cs <= length cs.
Proof. induction cs as [| [] cs IH]; simpl; lia. Qed.

Lemma selectedCount_insert (cs : list bool) (i : nat) :
  i < length cs -> isCandidate cs i = false ->
  selectedCount (<[i := true]> cs) = S (selectedCount cs).
Proof.
  unfold isCandidate. revert i.
  induction cs as [| c cs IH]; intros [| i]; simpl; try lia.
  - intros _ ->. reflexivity.
  - intros Hi Hc. rewrite IH by (lia || exact Hc). lia.
Qed.

Section Expanding.
Variable steps : list Step.
Variable requested : list string.

Lemma matched_selection (m : Matching) :
  matched steps requested (length steps) m ->
  selection steps requested (candidates m) (required m).
Proof.
  intros [Hlen Hcs _ _ Hreq]. split; [exact Hlen | | | exact Hreq].
  - intros i [_ H]%Hcs. now apply wanted_requested.
  - intros i H. apply Hcs. split; [| exact H].
    destruct H as (s & Hs & _). apply lookup_lt_is_Some. eauto.
Qed.

Lemma expandStep_advances (k : nat) (s : Step) (e : Expansion) :
  steps !! k = Some s ->
  selection steps requested (selected e) (frontier e) ->
  advances steps requested k e (expandStep k s e)
  /\ (added (expandStep k s e) = added e ->
      isCandidate (selected e) k = true
      \/ HasAnyLinks (frontier e) (Creates s) = false).
Proof.
  intros Hs Hsel. unfold expandStep.
  destruct (isCandidate (selected e) k) eqn:Ec.
  { split; [split; auto; lia | auto]. }
  destruct (HasAnyLinks (frontier e) (Creates s)) eqn:Ea.
  2: { split; [split; auto; lia | auto]. }
  destruct Hsel as [Hlen Hw Hr Hf].
  assert (Hk : k < length (selected e)).
  { rewrite Hlen. apply lookup_lt_is_Some. eauto. }
  split; [| simpl; lia]. split; simpl.
  - split.
    + now rewrite length_insert.
    + intros i. rewrite isCandidate_insert by exact Hk.
      destruct (Nat.eqb_spec i k) as [-> | Hne]; [intros _ | apply Hw].
      apply HasAnyLinks_true in Ea as (r & c & Hrf & Hc & Hrc).
      apply Hf in Hrf as (j & t & Hj & Ht & Hrt).
      apply (wanted_feeds _ _ k j); [now apply Hw |].
      apply feedsAt_true. exists s, t. repeat split; [exact Hs | exact Ht |].
      apply feedsb_true. eauto.
    + intros i Hi. rewrite isCandidate_insert by exact Hk.
      destruct (Nat.eqb i k); [reflexivity | now apply Hr].
    + now apply frontierOf_select.
  - lia.
  - rewrite selectedCount_insert by assumption. lia.
  - lia.
Qed.

Lemma expandPass_advances (rest : list Step) :
  forall (k : nat) (e : Expansion),
  drop k steps = rest ->
  selection steps requested (selected e) (frontier e) ->
  advances steps requested k e (expandPass k rest e)
  /\ (added (expandPass k rest e) = added e ->
      saturatedFrom steps k (selected e) (frontier e)).
Proof.
  induction rest as [| s rest IH]; intros k e Hdrop Hsel; simpl.
  - split; [split; auto; lia |]. intros _ i t Hi Ht.
    apply (f_equal length) in Hdrop. rewrite length_drop in Hdrop. simpl in Hdrop.
    apply lookup_lt_Some in Ht. lia.
  - assert (Hs : steps !! k = Some s).
    { rewrite <- (Nat.add_0_r k), <- lookup_drop, Hdrop. reflexivity. }
    destruct (expandStep_advances k s e Hs Hsel) as [[Hsel1 Hadd1 Hcnt1 Hidle1] Hsat1].
    destruct (IH (S k) (expandStep k s e)) as [[Hsel2 Hadd2 Hcnt2 Hidle2] Hsat2].
    { rewrite (drop_S _ _ _ Hs) in Hdrop. congruence. }
    { exact Hsel1. }
    split; [split |].
    + exact Hsel2.
    + lia.
    + lia.
    + intros Heq. rewrite Hidle2 by lia. apply Hidle1. lia.
    + intros Heq.
      assert (He1 : expandStep k s e = e) by (apply Hidle1; lia).
      intros i t Hi Ht. destruct (Nat.eq_dec i k) as [-> | Hne].
      * assert (t = s) as -> by congruence. apply Hsat1. lia.
      * rewrite <- He1 at 1 2. apply Hsat2; [lia | lia | exact Ht].
Qed.

(** The loop ends within the fuel left whenever that exceeds the number
    of steps not yet selected, and it ends on a saturated selection. *)
Lemma expandLoop_ends (fuel : nat) :
  forall (cs : list bool) (req : list StepLink),
  selection steps requested cs req ->
  length steps - selectedCount cs < fuel ->
  exists cs' req',
    expandLoop fuel steps cs req = Some (cs', req')
    /\ selection steps requested cs' req'
    /\ saturatedFrom steps 0 cs' req'.
Proof.
  induction fuel as [| fuel IH]; intros cs req Hsel Hfuel; [lia |].
  simpl.
  destruct (expandPass_advances steps 0 (mkExpansion cs req 0) (drop_0 _) Hsel)
    as [[Hsel' Hadd Hcnt Hidle] Hsat].
  simpl in *.
  destruct (Nat.eqb_spec (added (expandPass 0 steps (mkExpansion cs req 0))) 0)
    as [Hz | Hnz].
  - exists (selected (expandPass 0 steps (mkExpansion cs req 0))),
           (frontier (expandPass 0 steps (mkExpansion cs req 0))).
    split; [reflexivity |]. split; [exact Hsel' |].
    rewrite (Hidle Hz). simpl. now apply Hsat.
  - apply IH; [exact Hsel' |].
    pose proof (selectedCount_le (selected (expandPass 0 steps (mkExpansion cs req 0)))) as Hle.
    rewrite (selection_length _ _ _ _ Hsel') in Hle. lia.
Qed.

(** A saturated selection holds every wanted step. *)
Lemma saturated_complete (cs : list bool) (req : list StepLink) (i : nat) :
  selection steps requested cs req -> saturatedFrom steps 0 cs req ->
  wantedAt steps requested i -> isCandidate cs i = true.
Proof.
  intros [Hlen Hw Hr Hf] Hsat Hi.
  induction Hi as [i Hi | i j _ IH Hfeeds]; [now apply Hr |].
  apply feedsAt_true in Hfeeds as (si & sj & Hsi & Hsj & Hb).
  destruct (Hsat i si (Nat.le_0_l i) Hsi) as [Hc | Hnone]; [exact Hc |].
  apply feedsb_true in Hb as (r & c & Hr' & Hc & Hrc).
  assert (HasAnyLinks req (Creates si) = true) as Habs; [| congruence].
  apply HasAnyLinks_true. exists r, c. repeat split; [| exact Hc | exact Hrc].
  apply Hf. eauto.
Qed.
End Expanding.

(** ** The targeted steps *)

Lemma isCandidate_true (cs : list bool) (i : nat) :
  isCandidate cs i = true <-> cs !! i = Some true.
Proof.
  unfold isCandidate. destruct (cs !! i) as [[] |]; simpl; split; congruence.
Qed.

Lemma collectTargeted_elem (steps : list Step) (cs : list bool) :
  forall (k : nat) (targeted : list Step) (s : Step),
  s ∈ collectTargeted k cs steps targeted <->
  s ∈ targeted \/ exists i, cs !! i = Some true /\ steps !! (k + i) = Some s.
Proof.
  induction cs as [| c cs IH]; intros k targeted s; simpl.
  - split; [auto | intros [H | (i & Hi & _)]; [exact H | discriminate Hi]].
  - rewrite IH. split.
    + intros [H | (i & Hi & Hs)].
      * destruct c; [| auto].
        destruct (steps !! k) as [t |] eqn:Ht; [| auto].
        apply elem_of_app in H as [H | H]; [auto |].
        apply list_elem_of_singleton in H as ->.
        right. exists 0. rewrite Nat.add_0_r. auto.
      * right. exists (S i). rewrite Nat.add_succ_r. auto.
    + intros [H | ([| i] & Hi & Hs)].
      * left. destruct c; [| exact H].
        destruct (steps !! k); [| exact H]. apply elem_of_app. auto.
      * simpl in Hi. injection Hi as ->. rewrite Nat.add_0_r in Hs.
        left. rewrite Hs. apply elem_of_app. right. left.
      * right. exists i. rewrite Nat.add_succ_r in Hs. auto.
Qed.

Lemma collectTargeted_selected (steps : list Step) (cs : list bool) (s : Step) :
  s ∈ collectTargeted 0 cs steps [] <->
  exists i, isCandidate cs i = true /\ steps !! i = Some s.
Proof.
  rewrite collectTargeted_elem. split.
  - intros [H | (i & Hi & Hs)]; [inversion H |].
    exists i. now rewrite isCandidate_true.
  - intros (i & Hi & Hs). right. exists i. now rewrite <- isCandidate_true.
Qed.

(** ** The step set of a built forest *)

Lemma inForest_fedFromRoot (steps : list Step) (p : nat) :
  inForest (BuildGraph steps) p ->
  forall s, steps !! p = Some s -> fedFromRoot steps s.
Proof.
  induction 1 as [p Hp | p q n _ IH Hn Hq]; intros s Hs.
  - apply BuildGraph_roots in Hp as [_ Hp].
    apply fedFromRoot_root; [eapply list_elem_of_lookup_2; eauto |].
    intros t [i Hi]%list_elem_of_lookup.
    specialize (Hp i). unfold feedsAt in Hp. now rewrite Hi, Hs in Hp.
  - apply (BuildGraph_children steps p q n Hn) in Hq.
    apply feedsAt_true in Hq as (t & s' & Ht & Hs' & Hb).
    assert (s' = s) as -> by congruence.
    apply (fedFromRoot_child _ t); [now apply IH | | exact Hb].
    eapply list_elem_of_lookup_2; eauto.
Qed.

Lemma fedFromRoot_inForest (steps : list Step) (s : Step) :
  fedFromRoot steps s ->
  exists p, inForest (BuildGraph steps) p /\ steps !! p = Some s.
Proof.
  induction 1 as [s Hs Hroot | t s _ (p & Hp & Ht) Hs Hb].
  - apply list_elem_of_lookup in Hs as [j Hj]. exists j. split; [| exact Hj].
    apply inForest_root, BuildGraph_roots. split.
    + apply lookup_lt_is_Some. eauto.
    + intros i. destruct (feedsAt steps i j) eqn:E; [| reflexivity].
      apply feedsAt_true in E as (t & s' & Ht & Hs' & Hb).
      assert (s' = s) as -> by congruence.
      rewrite Hroot in Hb; [discriminate |].
      eapply list_elem_of_lookup_2; eauto.
  - apply list_elem_of_lookup in Hs as [q Hq]. exists q. split; [| exact Hq].
    apply (inForest_child _ p q
             (mkStepNode t (childrenUpTo steps (length steps) p))).
    + exact Hp.
    + apply BuildGraph_node. eauto.
    + simpl. apply elem_of_childrenUpTo, feedsAt_true. eauto.
Qed.

Lemma forestSteps_BuildGraph (steps : list Step) (s : Step) :
  forestSteps (BuildGraph steps) s <-> fedFromRoot steps s.
Proof.
  split.
  - intros (p & n & Hp & Hn & <-).
    apply (inForest_fedFromRoot steps p Hp).
    apply BuildGraph_node in Hn as (s & Hs & ->). exact Hs.
  - intros (p & Hp & Hs)%fedFromRoot_inForest.
    exists p, (mkStepNode s (childrenUpTo steps (length steps) p)).
    split; [exact Hp |]. split; [| reflexivity].
    apply BuildGraph_node. eauto.
Qed.

Lemma fedFromRoot_elem (l : list Step) (s : Step) : fedFromRoot l s -> s ∈ l.
Proof. now destruct 1. Qed.

(** A part of the steps that holds every feeder of its members has no
    root and no edge of its own. *)
Lemma fedFromRoot_closed_part (part l : list Step) :
  (forall s, s ∈ part -> s ∈ l) ->
  (forall s t, s ∈ part -> t ∈ l -> feedsb t s = true -> t ∈ part) ->
  forall s, fedFromRoot part s -> fedFromRoot l s.
Proof.
  intros Hsub Hclosed s. induction 1 as [s Hs Hroot | t s _ IH Hs Hb].
  - apply fedFromRoot_root; [now apply Hsub |].
    intros t Ht. destruct (feedsb t s) eqn:E; [| reflexivity].
    rewrite <- E. apply Hroot. now apply (Hclosed s).
  - apply (fedFromRoot_child _ t); auto.
Qed.

(** Without a cycle of feeding, every step of the list is found. *)
Lemma fedFromRoot_ranked (l : list Step) (rank : Step -> nat) :
  (forall t s, t ∈ l -> s ∈ l -> feedsb t s = true -> rank t < rank s) ->
  forall s, s ∈ l -> fedFromRoot l s.
Proof.
  intros Hrank.
  assert (H : forall n s, rank s < n -> s ∈ l -> fedFromRoot l s).
  { induction n as [| n IH]; intros s Hn Hs; [lia |].
    destruct (existsb (fun t => feedsb t s) l) eqn:E.
    - apply existsb_exists in E as (t & Ht & Hb).
      apply list_elem_of_In in Ht.
      apply (fedFromRoot_child _ t); [| exact Hs | exact Hb].
      apply IH; [| exact Ht]. specialize (Hrank t s Ht Hs Hb). lia.
    - apply fedFromRoot_root; [exact Hs |]. intros t Ht.
      destruct (feedsb t s) eqn:Hb; [| reflexivity].
      assert (existsb (fun t => feedsb t s) l = true) as Habs; [| congruence].
      apply existsb_exists. exists t. now rewrite <- list_elem_of_In. }
  intros s. apply (H (S (rank s))). lia.
Qed.

(** ** The run of [BuildPartialGraph] *)

(** With names given, the call either stops on the names left unmatched,
    or builds the graph of a saturated selection. *)
Lemma BuildPartialGraph_run (steps : list Step) (requested : list string) :
  requested <> [] ->
  exists m,
    matched steps requested (length steps) m
    /\ match names m with
       | _ :: _ =>
           BuildPartialGraph steps requested
           = Some (NotFound (notFoundMessage (names m) (allNames m)))
       | [] =>
           exists cs req,
             selection steps requested cs req
             /\ saturatedFrom steps 0 cs req
             /\ BuildPartialGraph steps requested
                = Some (Built (BuildGraph (collectTargeted 0 cs steps [])))
       end.
Proof.
  intros Hne. unfold BuildPartialGraph, BuildPartialGraphFuel.
  destruct requested as [| n0 rest]; [contradiction |].
  pose proof (matchLoop_matched steps (n0 :: rest)) as Hm.
  destruct (matchLoop 0 steps _) as [cs req unmatched known].
  exists (mkMatching cs req unmatched known). split; [exact Hm |].
  cbn [names allNames].
  destruct unmatched as [| u unmatched]; [| reflexivity].
  destruct (expandLoop_ends steps (n0 :: rest) (S (length steps)) cs req)
    as (cs' & req' & Hloop & Hsel & Hsat).
  - exact (matched_selection _ _ _ Hm).
  - lia.
  - exists cs', req'. rewrite Hloop. auto.
Qed.

Lemma unmatched_nil_iff (steps : list Step) (requested : list string) (m : Matching) :
  matched steps requested (length steps) m ->
  names m = [] <->
  forall n, occurrences n requested <= occurrences n (Name <$> steps).
Proof.
  intros [_ _ Hnames _ _]. rewrite firstn_all in Hnames. split.
  - intros Hnil n. specialize (Hnames n). rewrite Hnil in Hnames. simpl in Hnames. lia.
  - intros Hle. apply occurrences_zero_nil. intros n.
    rewrite Hnames. specialize (Hle n). lia.
Qed.

(** The steps [BuildGraph] is applied to are the wanted ones. *)
Lemma targeted_wanted (steps : list Step) (requested : list string)
    (cs : list bool) (req : list StepLink) (s : Step) :
  selection steps requested cs req -> saturatedFrom steps 0 cs req ->
  s ∈ collectTargeted 0 cs steps [] <-> wanted steps requested s.
Proof.
  intros Hsel Hsat. rewrite collectTargeted_selected. unfold wanted.
  split; intros (i & Hi & Hs); exists i; (split; [| exact Hs]).
  - now apply (selection_wanted _ _ _ _ Hsel).
  - now apply (saturated_complete steps requested cs req).
Qed.

Lemma wanted_feeder (steps : list Step) (requested : list string) (s t : Step) :
  wanted steps requested s -> t ∈ steps -> feedsb t s = true ->
  wanted steps requested t.
Proof.
  intros (j & Hj & Hs) [i Hi]%list_elem_of_lookup Hb.
  exists i. split; [| exact Hi].
  apply (wanted_feeds _ _ i j Hj), feedsAt_true. eauto.
Qed.

Lemma wanted_elem (steps : list Step) (requested : list string) (s : Step) :
  wanted steps requested s -> s ∈ steps.
Proof. intros (i & _ & Hs). eapply list_elem_of_lookup_2; eauto. Qed.

(** More passes than needed change nothing. *)
Lemma expandLoop_more_fuel (steps : list Step) (fuel : nat) :
  forall (cs : list bool) (req : list StepLink) r,
  expandLoop fuel steps cs req = Some r ->
  expandLoop (S fuel) steps cs req = Some r.
Proof.
  induction fuel as [| fuel IH]; intros cs req r H; [discriminate H |].
  change (expandLoop (S (S fuel)) steps cs req)
    with (let e := expandPass 0 steps (mkExpansion cs req 0) in
          if Nat.eqb (added e) 0 then Some (selected e, frontier e)
          else expandLoop (S fuel) steps (selected e) (frontier e)).
  simpl in H. cbv zeta.
  destruct (Nat.eqb (added (expandPass 0 steps (mkExpansion cs req 0))) 0);
    [exact H | now apply IH].
Qed.

Lemma expandLoop_fuel_le (steps : list Step) (fuel fuel' : nat)
    (cs : list bool) (req : list StepLink) r :
  fuel <= fuel' ->
  expandLoop fuel steps cs req = Some r ->
  expandLoop fuel' steps cs req = Some r.
Proof.
  induction 1 as [| fuel' _ IH]; intros H; [exact H |].
  now apply expandLoop_more_fuel, IH.
Qed.

(** The bound on the passes is not felt: every larger bound gives the
    result of [BuildPartialGraph]. *)
Lemma BuildPartialGraphFuel_enough (steps : list Step) (requested : list string)
    (fuel : nat) :
  length steps < fuel ->
  BuildPartialGraphFuel fuel steps requested = BuildPartialGraph steps requested.
Proof.
  intros Hfuel. unfold BuildPartialGraph, BuildPartialGraphFuel.
  destruct requested as [| n0 rest]; [reflexivity |].
  pose proof (matchLoop_matched steps (n0 :: rest)) as Hm.
  destruct (matchLoop 0 steps _) as [cs req unmatched known].
  destruct unmatched as [| u unmatched]; [| reflexivity].
  destruct (expandLoop_ends steps (n0 :: rest) (S (length steps)) cs req)
    as (cs' & req' & Hloop & _).
  - exact (matched_selection _ _ _ Hm).
  - lia.
  - rewrite Hloop.
    now rewrite (expandLoop_fuel_le steps (S (length steps)) fuel cs req _ Hfuel Hloop).
Qed.

(** [BuildPartialGraph] returns on every input. *)
Lemma BuildPartialGraph_returns (steps : list Step) (requested : list string) :
  exists result, BuildPartialGraph steps requested = Some result.
Proof.
  destruct requested as [| n0 rest] eqn:E; [eexists; reflexivity |].
  destruct (BuildPartialGraph_run steps (n0 :: rest)) as (m & _ & Hrun);
    [discriminate |].
  destruct (names m); [| eauto].
  destruct Hrun as (cs & req & _ & _ & Hrun). eauto.
Qed.

(** ** The results of [BuildPartialGraph] *)

(** C9: with no names, [BuildPartialGraph] returns the forest of
    [BuildGraph] over all steps, and no error. *)
Theorem BuildPartialGraph_no_names (steps : list Step) :
  BuildPartialGraph steps [] = Some (Built (BuildGraph steps)).
Proof. reflexivity. Qed.

(** ** The text of the error *)

Lemma string_append_nil_r (a : string) : (a ++ "")%string = a.
Proof. induction a as [| x a IH]; simpl; [reflexivity | now rewrite IH]. Qed.

Lemma mentions_self (name : string) : mentions name name.
Proof. exists ""%string, ""%string. simpl. now rewrite string_append_nil_r. Qed.

Lemma mentions_append_l (a text name : string) :
  mentions text name -> mentions (a ++ text) name.
Proof.
  intros (before & after & ->). exists (a ++ before)%string, after.
  now rewrite <- string_append_assoc.
Qed.

Lemma mentions_append_r (text b name : string) :
  mentions text name -> mentions (text ++ b) name.
Proof.
  intros (before & after & ->). exists before, (after ++ b)%string.
  now rewrite <- !string_append_assoc.
Qed.

(** [strings.Join] writes out every element. *)
Lemma Join_mentions (elems : list string) (sep name : string) :
  name ∈ elems -> mentions (Join elems sep) name.
Proof.
  induction elems as [| e elems IH]; intros Hin; [inversion Hin |].
  destruct elems as [| e' elems].
  - apply list_elem_of_singleton in Hin as ->. apply mentions_self.
  - change (Join (e :: e' :: elems) sep)
      with (e ++ sep ++ Join (e' :: elems) sep)%string.
    apply elem_of_cons in Hin as [-> | Hin].
    + apply mentions_append_r, mentions_self.
    + now apply mentions_append_l, mentions_append_l, IH.
Qed.

Lemma notFoundMessage_text (unmatched known : list string) :
  notFoundMessage unmatched known
  = ("the following names were not found in the config or were duplicates: "
     ++ Join unmatched ", " ++ " (from " ++ Join known ", " ++ ")")%string.
Proof. reflexivity. Qed.

Lemma notFoundMessage_mentions (unmatched known : list string) (name : string) :
  name ∈ unmatched \/ name ∈ known ->
  mentions (notFoundMessage unmatched known) name.
Proof.
  rewrite notFoundMessage_text. intros [Hin | Hin].
  - apply mentions_append_l, mentions_append_r. now apply Join_mentions.
  - apply mentions_append_l, mentions_append_l, mentions_append_l,
      mentions_append_r.
    now apply Join_mentions.
Qed.

(** C3: with names given, [BuildPartialGraph] returns the NotFound error,
    and no forest, exactly when some name is requested more often than
    steps bear it.  The text of the error is the fixed opening, the names
    left unmatched joined by a comma and a space, [ (from ], the names of
    all steps joined in the same way, and a closing bracket; each name is
    left unmatched as often as it is requested beyond the steps that bear
    it, and every unmatched name and the name of every step stand in the
    text.  In the other case a forest is returned. *)
Theorem BuildPartialGraph_not_found (steps : list Step) (requested : list string) :
  requested <> [] ->
  ((exists n, occurrences n (Name <$> steps) < occurrences n requested) <->
   (exists message, BuildPartialGraph steps requested = Some (NotFound message)))
  /\ (forall message,
        BuildPartialGraph steps requested = Some (NotFound message) ->
        exists unmatched,
          unmatched <> []
          /\ (forall n, occurrences n unmatched
                        = occurrences n requested - occurrences n (Name <$> steps))
          /\ message
             = ("the following names were not found in the config or were duplicates: "
                ++ Join unmatched ", " ++ " (from "
                ++ Join (Name <$> steps) ", " ++ ")")%string
          /\ (forall n, n ∈ unmatched -> mentions message n)
          /\ (forall s, s ∈ steps -> mentions message (Name s)))
  /\ ((forall n, occurrences n requested <= occurrences n (Name <$> steps)) ->
      exists forest, BuildPartialGraph steps requested = Some (Built forest)).
Proof.
  intros Hne.
  destruct (BuildPartialGraph_run steps requested Hne) as (m & Hm & Hrun).
  pose proof (unmatched_nil_iff steps requested m Hm) as Hnil.
  destruct Hm as [_ _ Hnames Hall _]. rewrite firstn_all in Hnames, Hall.
  destruct (names m) as [| u unmatched] eqn:Eu.
  - destruct Hrun as (cs & req & _ & _ & Hrun).
    assert (Hle : forall n, occurrences n requested <= occurrences n (Name <$> steps))
      by now apply Hnil.
    rewrite Hrun. split; [| split].
    + split; [| intros (message & [=])].
      intros (n & Hn). specialize (Hle n). lia.
    + intros message [=].
    + eauto.
  - rewrite Hrun. split; [| split].
    + split; [eauto |]. intros _.
      exists u. specialize (Hnames u). simpl in Hnames.
      rewrite String.eqb_refl in Hnames. lia.
    + intros message [= <-]. exists (u :: unmatched). rewrite Hall.
      split; [discriminate |]. split; [exact Hnames |].
      split; [apply notFoundMessage_text |]. split.
      * intros n Hn. apply notFoundMessage_mentions. now left.
      * intros s Hs. apply notFoundMessage_mentions. right.
        now apply list_elem_of_fmap_2.
    + intros Hle. apply Hnil in Hle. discriminate.
Qed.

Lemma BuildPartialGraph_not_found_witness :
  let steps := [srcStep; unitStep] in
  let requested := ["e2e"; "unit"; "images"]%string in
  let message :=
    "the following names were not found in the config or were duplicates: e2e, images (from src, unit)"%string in
  requested <> []
  /\ (exists n, occurrences n (Name <$> steps) < occurrences n requested)
  /\ BuildPartialGraph steps requested = Some (NotFound message)
  /\ exists unmatched,
       (forall n, occurrences n unmatched
                  = occurrences n requested - occurrences n (Name <$> steps))
       /\ message
          = ("the following names were not found in the config or were duplicates: "
             ++ Join unmatched ", " ++ " (from "
             ++ Join (Name <$> steps) ", " ++ ")")%string
       /\ (forall n, n ∈ unmatched -> mentions message n)
       /\ (forall s, s ∈ steps -> mentions message (Name s)).
Proof.
  intros steps requested message.
  assert (Hne : requested <> []) by discriminate.
  assert (Hn : exists n, occurrences n (Name <$> steps) < occurrences n requested).
  { exists "e2e"%string. simpl. lia. }
  assert (Hrun : BuildPartialGraph steps requested = Some (NotFound message))
    by reflexivity.
  split; [exact Hne |]. split; [exact Hn |]. split; [exact Hrun |].
  destruct (BuildPartialGraph_not_found steps requested Hne) as (_ & Hmsg & _).
  destruct (Hmsg message Hrun) as (unmatched & _ & Hocc & Htext & Hun & Hall).
  exists unmatched. split; [exact Hocc |]. split; [exact Htext |].
  split; [exact Hun | exact Hall].
Defined.

(** C4, as stated, fails: [ping] is requested and [pong] feeds it, both
    are matched or pulled in, and the returned forest has no root, so
    that the requested step is not in its step set. *)
Lemma BuildPartialGraph_cycle_loses_requested :
  let steps := [ping; pong] in
  let requested := ["ping"%string] in
  exists forest,
    BuildPartialGraph steps requested = Some (Built forest)
    /\ requestedAt steps requested 0
    /\ steps !! 0 = Some ping
    /\ ~ forestSteps forest ping.
Proof.
  intros steps requested. eexists. split; [reflexivity |].
  split; [| split; [reflexivity |]].
  - exists ping. split; [reflexivity | simpl; lia].
  - intros (p & n & Hp & _). revert Hp. now apply inForest_no_roots.
Qed.

(** C4, amended: with names that all match, [BuildPartialGraph] returns
    [BuildGraph] applied to exactly the requested steps and the steps that
    feed, through any number of steps, a requested one.  The step set of
    the returned forest is a subset of the step set of [BuildGraph] over
    all steps and holds wanted steps only; it holds every wanted step
    when feeding has no cycle among them. *)
Theorem BuildPartialGraph_step_set (steps : list Step) (requested : list string) :
  requested <> [] ->
  (forall n, occurrences n requested <= occurrences n (Name <$> steps)) ->
  exists targeted,
    BuildPartialGraph steps requested = Some (Built (BuildGraph targeted))
    /\ (forall s, s ∈ targeted <-> wanted steps requested s)
    /\ (forall s, forestSteps (BuildGraph targeted) s ->
                  forestSteps (BuildGraph steps) s)
    /\ (forall s, forestSteps (BuildGraph targeted) s -> wanted steps requested s)
    /\ (forall rank : Step -> nat,
          (forall t s, wanted steps requested t -> wanted steps requested s ->
                       feedsb t s = true -> rank t < rank s) ->
          forall s, wanted steps requested s -> forestSteps (BuildGraph targeted) s).
Proof.
  intros Hne Hmatch.
  destruct (BuildPartialGraph_run steps requested Hne) as (m & Hm & Hrun).
  apply (unmatched_nil_iff steps requested m Hm) in Hmatch.
  rewrite Hmatch in Hrun.
  destruct Hrun as (cs & req & Hsel & Hsat & Hrun).
  pose proof (fun s => targeted_wanted steps requested cs req s Hsel Hsat) as Ht.
  exists (collectTargeted 0 cs steps []).
  split; [exact Hrun |]. split; [exact Ht |]. split; [| split].
  - intros s. rewrite !forestSteps_BuildGraph.
    apply fedFromRoot_closed_part.
    + intros s' Hs'. apply Ht in Hs'. now apply wanted_elem in Hs'.
    + intros s' t Hs' Hin Hb. apply Ht. apply Ht in Hs'.
      now apply (wanted_feeder steps requested s' t).
  - intros s Hs. apply Ht. apply forestSteps_BuildGraph in Hs.
    now apply fedFromRoot_elem in Hs.
  - intros rank Hrank s Hs. apply forestSteps_BuildGraph.
    apply (fedFromRoot_ranked _ rank); [| now apply Ht].
    intros t s' Hin Hin' Hb. apply Hrank; [now apply Ht | now apply Ht | exact Hb].
Qed.

Lemma BuildPartialGraph_step_set_witness :
  let steps := [srcStep; unitStep] in
  let requested := ["unit"%string] in
  requested <> []
  /\ (forall n, occurrences n requested <= occurrences n (Name <$> steps))
  /\ exists targeted,
       BuildPartialGraph steps requested = Some (Built (BuildGraph targeted))
       /\ (forall s, forestSteps (BuildGraph targeted) s ->
                     forestSteps (BuildGraph steps) s)
       /\ (forall s, wanted steps requested s <->
                     forestSteps (BuildGraph targeted) s).
Proof.
  intros steps requested.
  assert (Hne : requested <> []) by discriminate.
  assert (Hmatch : forall n, occurrences n requested
                             <= occurrences n (Name <$> steps)).
  { intros n. simpl. destruct (String.eqb "unit" n), (String.eqb "src" n); lia. }
  split; [exact Hne |]. split; [exact Hmatch |].
  destruct (BuildPartialGraph_step_set steps requested Hne Hmatch)
    as (targeted & Hrun & _ & Hsub & Hwanted & Hall).
  exists targeted. split; [exact Hrun |]. split; [exact Hsub |].
  intros s. split; [| apply Hwanted].
  apply (Hall (fun s => length (Requires s))).
  intros t s' (i & _ & Hi) (j & _ & Hj) Hb.
  destruct i as [| [| i]]; [| | discriminate Hi];
    destruct j as [| [| j]]; try discriminate Hj;
    injection Hi as <-; injection Hj as <-;
    first [discriminate Hb | simpl; lia].
Defined.

(** * Further properties *)

(** ** The satisfiability relation *)

(** The three ways a link is satisfied: it is the wildcard, the other
    link is the same link, or it is a tag of the stream the other link
    stands for. *)
Lemma SatisfiedBy_cases (l other : StepLink) :
  SatisfiedBy l other = true <->
  l = allStepsLink \/ l = other
  \/ exists n t, l = internalImageStreamTagLink n t
                 /\ other = internalImageStreamLink n.
Proof.
  split.
  - intros H. destruct l, other; simpl in H; try discriminate H;
      repeat match goal with
             | H : _ && _ = true |- _ => apply andb_true_iff in H as [H ?]
             end;
      repeat match goal with
             | H : String.eqb _ _ = true |- _ => apply String.eqb_eq in H; subst
             end;
      first [ left; reflexivity
            | right; left; reflexivity
            | right; right; eauto ].
  - intros [-> | [-> | (n & t & -> & ->)]]; simpl.
    + reflexivity.
    + destruct other; simpl; rewrite ?String.eqb_refl; reflexivity.
    + apply String.eqb_refl.
Qed.

(** X1: [l.SatisfiedBy(other)] holds exactly when [l] is the wildcard
    link, or [other] has the kind and the fields of [l], or [l] is a tag
    link and [other] the stream link of the same stream. *)
Theorem SatisfiedBy_characterised (l other : StepLink) :
  SatisfiedBy l other = true <->
  l = AllStepsLink \/ l = other
  \/ exists n t, l = internalImageStreamTagLink n t
                 /\ other = internalImageStreamLink n.
Proof. apply SatisfiedBy_cases. Qed.

(** X2: every link is satisfied by a link of the same kind and fields,
    however the two were built. *)
Theorem SatisfiedBy_reflexive (l : StepLink) : SatisfiedBy l l = true.
Proof. apply SatisfiedBy_cases. right. left. reflexivity. Qed.

(** X3: satisfiability composes: when [b] satisfies [a] and [c]
    satisfies [b], then [c] satisfies [a]. *)
Theorem SatisfiedBy_transitive (a b c : StepLink) :
  SatisfiedBy a b = true -> SatisfiedBy b c = true -> SatisfiedBy a c = true.
Proof.
  intros Hab Hbc. apply SatisfiedBy_cases in Hab as [-> | [-> | (n & t & -> & ->)]].
  - reflexivity.
  - exact Hbc.
  - apply SatisfiedBy_cases in Hbc as [H | [<- | (n' & t' & H & _)]];
      [discriminate H | apply String.eqb_refl | discriminate H].
Qed.

Lemma SatisfiedBy_transitive_witness :
  let a := internalImageStreamTagLink "stable" "installer" in
  let b := internalImageStreamLink "stable" in
  SatisfiedBy a b = true /\ SatisfiedBy b b = true /\ SatisfiedBy a b = true.
Proof.
  intros a b.
  assert (Hab : SatisfiedBy a b = true) by reflexivity.
  assert (Hbb : SatisfiedBy b b = true) by reflexivity.
  split; [exact Hab |]. split; [exact Hbb |].
  exact (SatisfiedBy_transitive a b b Hab Hbb).
Defined.

(** X4: two links that satisfy each other are the same link. *)
Theorem SatisfiedBy_antisymmetric (a b : StepLink) :
  SatisfiedBy a b = true -> SatisfiedBy b a = true -> a = b.
Proof.
  intros Hab Hba. apply SatisfiedBy_cases in Hab as [-> | [-> | (n & t & -> & ->)]].
  - symmetry. now apply SatisfiedBy_AllStepsLink_only.
  - reflexivity.
  - discriminate Hba.
Qed.

Lemma SatisfiedBy_antisymmetric_witness :
  let a := externalImageLink "ocp" "builder" "golang" in
  SatisfiedBy a a = true /\ a = a.
Proof.
  intros a.
  assert (H : SatisfiedBy a a = true) by reflexivity.
  split; [exact H | exact (SatisfiedBy_antisymmetric a a H H)].
Defined.

(** ** Link sets *)

(** X5: [HasAnyLinks] answers true exactly when some candidate link
    satisfies some required link; with no required link or no candidate
    it answers false. *)
Theorem HasAnyLinks_characterised (steps candidates : list StepLink) :
  (HasAnyLinks steps candidates = true <->
   exists step candidate,
     step ∈ steps /\ candidate ∈ candidates /\ SatisfiedBy step candidate = true)
  /\ HasAnyLinks [] candidates = false
  /\ HasAnyLinks steps [] = false.
Proof.
  split; [apply HasAnyLinks_true |]. split; [| reflexivity].
  destruct (HasAnyLinks [] candidates) eqn:E; [| reflexivity].
  apply HasAnyLinks_true in E as (s & _ & Hs & _). inversion Hs.
Qed.

Lemma HasAllLinks_app (needles needles' haystack : list StepLink) :
  HasAllLinks (needles ++ needles') haystack
  = HasAllLinks needles haystack && HasAllLinks needles' haystack.
Proof.
  induction needles as [| n needles IH]; simpl; [reflexivity |].
  destruct (containsNeedle haystack n); simpl; [exact IH | reflexivity].
Qed.

(** X6: against an empty haystack [HasAllLinks] answers true for no
    needles only. *)
Theorem HasAllLinks_empty_haystack (needles : list StepLink) :
  HasAllLinks needles [] = true <-> needles = [].
Proof.
  destruct needles as [| n needles]; simpl; split; intros H;
    [reflexivity | reflexivity | discriminate H | discriminate H].
Qed.

(** X7: when every needle is itself a member of the haystack,
    [HasAllLinks] answers true. *)
Theorem HasAllLinks_members (needles haystack : list StepLink) :
  (forall needle, needle ∈ needles -> needle ∈ haystack) ->
  HasAllLinks needles haystack = true.
Proof.
  intros H. apply HasAllLinks_true. intros needle Hn.
  exists needle. split; [now apply H |].
  apply SatisfiedBy_cases. right. left. reflexivity.
Qed.

Lemma HasAllLinks_members_witness :
  let needles := [rpmRepoLink; internalImageStreamLink "stable"] in
  let haystack :=
    [internalImageStreamLink "stable"; imagesReadyLink; rpmRepoLink] in
  (forall needle, needle ∈ needles -> needle ∈ haystack)
  /\ HasAllLinks needles haystack = true.
Proof.
  intros needles haystack.
  assert (H : forall needle, needle ∈ needles -> needle ∈ haystack).
  { intros needle Hn. apply list_elem_of_In in Hn. apply list_elem_of_In.
    simpl in *. tauto. }
  split; [exact H | exact (HasAllLinks_members needles haystack H)].
Defined.

(** X8: [HasAllLinks] over two lists of needles put together is the
    conjunction of the answers for each list. *)
Theorem HasAllLinks_needles_app (needles needles' haystack : list StepLink) :
  HasAllLinks (needles ++ needles') haystack
  = HasAllLinks needles haystack && HasAllLinks needles' haystack.
Proof. apply HasAllLinks_app. Qed.

(** ** Release streams and image links *)

Lemma HasPrefix_refl (s : string) : HasPrefix s s = true.
Proof. induction s as [| c s IH]; simpl; [reflexivity | now rewrite Ascii.eqb_refl]. Qed.

Lemma string_append_cancel_r (a b c : string) :
  (a ++ c = b ++ c)%string -> a = b.
Proof.
  revert b. induction a as [| x a IH]; intros [| y b] H; simpl in H.
  - reflexivity.
  - apply (f_equal String.length) in H. simpl in H.
    rewrite string_append_length in H. lia.
  - apply (f_equal String.length) in H. simpl in H.
    rewrite string_append_length in H. lia.
  - injection H as -> H. now rewrite (IH b H).
Qed.

Section ReleaseStreams.
Variables PipelineImageStream ReleaseImageStream StableImageStream : string.
Variable LatestReleaseName : string.

Lemma release_name_read_back (name : string) :
  ReleaseNameFrom StableImageStream LatestReleaseName
    (ReleaseStreamFor StableImageStream LatestReleaseName name) = name.
Proof.
  unfold ReleaseStreamFor.
  destruct (String.eqb name LatestReleaseName) eqn:E.
  - apply String.eqb_eq in E. unfold ReleaseNameFrom. now rewrite String.eqb_refl.
  - unfold ReleaseNameFrom. rewrite ReleaseStreamFor_other_not_base.
    rewrite string_append_assoc. apply TrimPrefix_append.
Qed.

Lemma release_stream_prefixed (name : string) :
  IsReleaseStream StableImageStream
    (ReleaseStreamFor StableImageStream LatestReleaseName name) = true.
Proof.
  unfold IsReleaseStream, ReleaseStreamFor.
  destruct (String.eqb name LatestReleaseName);
    [apply HasPrefix_refl | apply HasPrefix_append].
Qed.

(** X9: two release names have the same stream only when they are the
    same name. *)
Theorem ReleaseStreamFor_injective (name name' : string) :
  ReleaseStreamFor StableImageStream LatestReleaseName name
  = ReleaseStreamFor StableImageStream LatestReleaseName name'
  <-> name = name'.
Proof.
  split; [| now intros ->]. intros H.
  rewrite <- (release_name_read_back name), <- (release_name_read_back name').
  now rewrite H.
Qed.

(** X10: the stream of every release name is a release stream. *)
Theorem ReleaseStreamFor_IsReleaseStream (name : string) :
  IsReleaseStream StableImageStream
    (ReleaseStreamFor StableImageStream LatestReleaseName name) = true.
Proof. apply release_stream_prefixed. Qed.

(** X11: the stream made of the base stream, the separator and a name
    reads back as that name, and the name leads back to the stream
    exactly when it is not the default release name: the stream spelled
    with the default name reads back as the default name, whose stream is
    the base stream. *)
Theorem ReleaseStreamFor_ReleaseNameFrom (name : string) :
  let stream := (StableImageStream ++ "-" ++ name)%string in
  ReleaseNameFrom StableImageStream LatestReleaseName stream = name
  /\ (ReleaseStreamFor StableImageStream LatestReleaseName
        (ReleaseNameFrom StableImageStream LatestReleaseName stream) = stream
      <-> name <> LatestReleaseName).
Proof.
  intros stream.
  assert (Hname : ReleaseNameFrom StableImageStream LatestReleaseName stream = name).
  { unfold ReleaseNameFrom, stream. rewrite ReleaseStreamFor_other_not_base.
    rewrite string_append_assoc. apply TrimPrefix_append. }
  split; [exact Hname |]. rewrite Hname. unfold ReleaseStreamFor.
  destruct (String.eqb_spec name LatestReleaseName) as [-> | Hne].
  - split; [| congruence]. intros H. exfalso.
    apply (f_equal String.length) in H. unfold stream in H.
    rewrite string_append_length in H. simpl in H. lia.
  - split; [intros _; exact Hne | reflexivity].
Qed.

(** X12: for the stream of a release name, unless it is the pipeline
    stream, [LinkForImage] gives the link of all images of that release,
    whatever the tag. *)
Theorem LinkForImage_release (name tag : string) :
  ReleaseStreamFor StableImageStream LatestReleaseName name <> PipelineImageStream ->
  LinkForImage PipelineImageStream ReleaseImageStream
    StableImageStream LatestReleaseName
    (ReleaseStreamFor StableImageStream LatestReleaseName name) tag
  = Some (ReleaseImagesLink StableImageStream LatestReleaseName name).
Proof.
  intros Hne. unfold LinkForImage.
  apply String.eqb_neq in Hne. rewrite Hne.
  rewrite release_stream_prefixed. unfold ReleaseImagesLink.
  now rewrite release_name_read_back.
Qed.

(** X13: [LinkForImage] gives no link exactly when the stream is not
    the pipeline stream, does not begin with the base stream and is not
    the release payload stream. *)
Theorem LinkForImage_none (imageStream tag : string) :
  LinkForImage PipelineImageStream ReleaseImageStream
    StableImageStream LatestReleaseName imageStream tag = None <->
  imageStream <> PipelineImageStream
  /\ IsReleaseStream StableImageStream imageStream = false
  /\ imageStream <> ReleaseImageStream.
Proof.
  unfold LinkForImage, IsReleasePayloadStream.
  destruct (String.eqb_spec imageStream PipelineImageStream) as [-> | Hp].
  { split; [discriminate | intros [H _]; congruence]. }
  destruct (IsReleaseStream StableImageStream imageStream).
  { split; [discriminate | intros (_ & H & _); discriminate H]. }
  destruct (String.eqb_spec imageStream ReleaseImageStream) as [-> | Hr].
  { split; [discriminate | intros (_ & _ & H); congruence]. }
  split; auto.
Qed.

(** X14: for a stream that begins with the base stream and is not the
    pipeline stream, the link [LinkForImage] gives does not depend on the
    tag, is a stream link, and is satisfied by no link of a single
    tag. *)
Theorem LinkForImage_release_whole_stream (imageStream tag : string) :
  imageStream <> PipelineImageStream ->
  IsReleaseStream StableImageStream imageStream = true ->
  exists l,
    (forall tag', LinkForImage PipelineImageStream ReleaseImageStream
                    StableImageStream LatestReleaseName imageStream tag'
                  = Some l)
    /\ l = internalImageStreamLink
             (ReleaseStreamFor StableImageStream LatestReleaseName
                (ReleaseNameFrom StableImageStream LatestReleaseName imageStream))
    /\ forall n t, SatisfiedBy l (internalImageStreamTagLink n t) = false.
Proof.
  intros Hp Hr. eexists. split; [| split; [reflexivity |]].
  - intros tag'. unfold LinkForImage.
    apply String.eqb_neq in Hp. rewrite Hp, Hr. reflexivity.
  - reflexivity.
Qed.
End ReleaseStreams.

Lemma LinkForImage_release_witness :
  let stream := ReleaseStreamFor "stable" "latest" "initial" in
  stream <> "pipeline"%string
  /\ LinkForImage "pipeline" "release" "stable" "latest" stream "cli"
     = Some (ReleaseImagesLink "stable" "latest" "initial").
Proof.
  intros stream.
  assert (H : stream <> "pipeline"%string) by discriminate.
  split; [exact H |].
  exact (LinkForImage_release "pipeline" "release" "stable" "latest" "initial" "cli" H).
Defined.

Lemma LinkForImage_release_whole_stream_witness :
  let stream := "stable-initial"%string in
  stream <> "pipeline"%string
  /\ IsReleaseStream "stable" stream = true
  /\ exists l,
       (forall tag', LinkForImage "pipeline" "release" "stable" "latest" stream tag'
                     = Some l)
       /\ forall n t, SatisfiedBy l (internalImageStreamTagLink n t) = false.
Proof.
  intros stream.
  assert (Hp : stream <> "pipeline"%string) by discriminate.
  assert (Hr : IsReleaseStream "stable" stream = true) by reflexivity.
  split; [exact Hp |]. split; [exact Hr |].
  destruct (LinkForImage_release_whole_stream
              "pipeline" "release" "stable" "latest" stream "cli" Hp Hr)
    as (l & Hl & _ & Hs).
  exists l. split; [exact Hl | exact Hs].
Defined.

(** X15: the address of the step graph document is the job address
    followed by [/artifacts/] and the file name, and two job addresses
    with the same document address are the same. *)
Theorem StepGraphJSONURL_injective (baseJobURL baseJobURL' : string) :
  StepGraphJSONURL baseJobURL
  = (baseJobURL ++ "/artifacts/ci-operator-step-graph.json")%string
  /\ (StepGraphJSONURL baseJobURL = StepGraphJSONURL baseJobURL'
      <-> baseJobURL = baseJobURL').
Proof.
  assert (H : forall b, StepGraphJSONURL b
                        = (b ++ "/artifacts/ci-operator-step-graph.json")%string)
    by reflexivity.
  split; [apply H |]. rewrite !H. split; [apply string_append_cancel_r | now intros ->].
Qed.

(** ** Attaching a child *)

(** X16: on a store that holds the parent, [addToNode] answers true
    exactly when the child is not yet among the parent's children; it
    then puts the child after them, and otherwise leaves the store as it
    is.  The parent keeps its step, no other node changes, and a second
    call answers false and changes nothing. *)
Theorem addToNode_attaches_once (σ : list StepNode) (parent child : nat)
    (p : StepNode) :
  σ !! parent = Some p ->
  let σ' := fst (addToNode σ parent child) in
  (snd (addToNode σ parent child) = true <-> child ∉ Children p)
  /\ σ' !! parent
     = Some (mkStepNode (NodeStep p)
               (if snd (addToNode σ parent child)
                then Children p ++ [child] else Children p))
  /\ (snd (addToNode σ parent child) = false -> σ' = σ)
  /\ (forall q, q <> parent -> σ' !! q = σ !! q)
  /\ addToNode σ' parent child = (σ', false).
Proof.
  intros Hp σ'. subst σ'.
  assert (Hlt : parent < length σ) by (apply lookup_lt_is_Some; eauto).
  assert (Hadd : addToNode σ parent child
                 = if hasChild (Children p) child then (σ, false)
                   else (<[parent := mkStepNode (NodeStep p) (Children p ++ [child])]> σ,
                         true)).
  { unfold addToNode. now rewrite Hp. }
  rewrite !Hadd.
  destruct (hasChild (Children p) child) eqn:E; simpl.
  - apply hasChild_true in E as Hin.
    split; [split; [discriminate | contradiction] |].
    split; [destruct p; exact Hp |]. split; [reflexivity |].
    split; [reflexivity |]. exact Hadd.
  - assert (Hout : child ∉ Children p).
    { intros Hin. apply hasChild_true in Hin. congruence. }
    split; [split; [intros _; exact Hout | reflexivity] |].
    split; [now apply list_lookup_insert_eq |].
    split; [discriminate |].
    split; [intros q Hq; now apply list_lookup_insert_ne |].
    unfold addToNode. rewrite list_lookup_insert_eq by exact Hlt. simpl.
    now rewrite hasChild_snoc.
Qed.

Lemma addToNode_attaches_once_witness :
  let σ := [mkStepNode srcStep [1]; mkStepNode unitStep []; mkStepNode selfFed []] in
  σ !! 0 = Some (mkStepNode srcStep [1])
  /\ addToNode σ 0 2
     = ([mkStepNode srcStep [1; 2]; mkStepNode unitStep []; mkStepNode selfFed []],
        true)
  /\ addToNode (fst (addToNode σ 0 2)) 0 2 = (fst (addToNode σ 0 2), false).
Proof.
  intros σ.
  assert (H : σ !! 0 = Some (mkStepNode srcStep [1])) by reflexivity.
  split; [exact H |]. split; [reflexivity |].
  exact (proj2 (proj2 (proj2 (proj2 (addToNode_attaches_once σ 0 2 _ H))))).
Defined.

(** X17: [addToNode] keeps the store free of repeated children: when no
    node has a child twice before the call, none has after it. *)
Theorem addToNode_keeps_children_distinct (σ : list StepNode) (parent child : nat) :
  Forall (fun n => NoDup (Children n)) σ ->
  Forall (fun n => NoDup (Children n)) (fst (addToNode σ parent child)).
Proof.
  intros H. unfold addToNode.
  destruct (σ !! parent) as [p |] eqn:Hp; [| exact H].
  destruct (hasChild (Children p) child) eqn:E; [exact H |]. simpl.
  apply Forall_insert; [exact H |]. simpl.
  apply NoDup_app. split; [| split].
  - exact (proj1 (Forall_lookup _ _) H parent p Hp).
  - intros x Hx Hx'. apply list_elem_of_singleton in Hx' as ->.
    apply hasChild_true in Hx. congruence.
  - apply NoDup_singleton.
Qed.

Lemma addToNode_keeps_children_distinct_witness :
  let σ := [mkStepNode srcStep [1]; mkStepNode unitStep []] in
  Forall (fun n => NoDup (Children n)) σ
  /\ Forall (fun n => NoDup (Children n)) (fst (addToNode σ 0 1)).
Proof.
  intros σ.
  assert (H : Forall (fun n => NoDup (Children n)) σ).
  { repeat constructor; intros Hin; inversion Hin. }
  split; [exact H | exact (addToNode_keeps_children_distinct σ 0 1 H)].
Defined.

(** ** The built forest *)

Lemma filter_seq_sorted (f : nat -> bool) (k : nat) :
  forall start, StronglySorted lt (List.filter f (seq start k)).
Proof.
  induction k as [| k IH]; intros start; simpl; [constructor |].
  destruct (f start); [| apply IH].
  constructor; [apply IH |].
  apply List.Forall_forall. intros x [Hx _]%filter_In.
  apply in_seq in Hx. lia.
Qed.

Lemma rootSteps_BuildGraph (steps : list Step) (s : Step) :
  rootSteps (BuildGraph steps) s <->
  s ∈ steps /\ forall t, t ∈ steps -> feedsb t s = false.
Proof.
  split.
  - intros (p & n & Hp & Hn & <-).
    apply BuildGraph_roots in Hp as [_ Hp].
    apply BuildGraph_node in Hn as (s & Hs & ->). simpl.
    split; [eapply list_elem_of_lookup_2; eauto |].
    intros t [i Hi]%list_elem_of_lookup.
    specialize (Hp i). unfold feedsAt in Hp. now rewrite Hi, Hs in Hp.
  - intros [[j Hj]%list_elem_of_lookup Hroot].
    exists j, (mkStepNode s (childrenUpTo steps (length steps) j)).
    split; [| split; [apply BuildGraph_node; eauto | reflexivity]].
    apply BuildGraph_roots. split; [apply lookup_lt_is_Some; eauto |].
    intros i. destruct (feedsAt steps i j) eqn:E; [| reflexivity].
    apply feedsAt_true in E as (t & s' & Ht & Hs' & Hb).
    assert (s' = s) as -> by congruence.
    rewrite Hroot in Hb; [discriminate | eapply list_elem_of_lookup_2; eauto].
Qed.

(** X18: [BuildGraph] allocates one node for each step, in the order of
    the steps, and each node holds its step. *)
Theorem BuildGraph_nodes_hold_steps (steps : list Step) :
  NodeStep <$> nodes (BuildGraph steps) = steps.
Proof.
  rewrite BuildGraph_closed. simpl. apply list_eq. intros i.
  rewrite list_lookup_fmap, storeOf_lookup.
  now destruct (steps !! i).
Qed.

(** X19: a step that requires no link is a root of the forest. *)
Theorem BuildGraph_no_requirement_root (steps : list Step) (j : nat) (s : Step) :
  steps !! j = Some s -> Requires s = [] -> j ∈ roots (BuildGraph steps).
Proof.
  intros Hs Hreq. apply BuildGraph_roots.
  split; [apply lookup_lt_is_Some; eauto |].
  intros i. unfold feedsAt. rewrite Hs.
  destruct (steps !! i); [| reflexivity].
  unfold feedsb. now rewrite Hreq.
Qed.

Lemma BuildGraph_no_requirement_root_witness :
  let steps := [unitStep; srcStep; selfFed] in
  steps !! 1 = Some srcStep
  /\ Requires srcStep = []
  /\ 1 ∈ roots (BuildGraph steps).
Proof.
  intros steps.
  assert (Hs : steps !! 1 = Some srcStep) by reflexivity.
  assert (Hr : Requires srcStep = []) by reflexivity.
  split; [exact Hs |]. split; [exact Hr |].
  exact (BuildGraph_no_requirement_root steps 1 srcStep Hs Hr).
Defined.

(** X20: a node is a root of the forest exactly when it is a child of no
    node: a root has no parent, and every other node has one. *)
Theorem BuildGraph_root_iff_no_parent (steps : list Step) (j : nat) :
  j ∈ roots (BuildGraph steps) <->
  j < length steps
  /\ forall i n, nodes (BuildGraph steps) !! i = Some n -> j ∉ Children n.
Proof.
  rewrite BuildGraph_roots. split; intros [Hj H]; (split; [exact Hj |]).
  - intros i n Hn Hin.
    apply (BuildGraph_children steps i j n Hn) in Hin. rewrite H in Hin.
    discriminate.
  - intros i. destruct (feedsAt steps i j) eqn:E; [| reflexivity].
    destruct (feedsAt_lt _ _ _ E) as [Hi _].
    apply lookup_lt_is_Some in Hi as [s Hs].
    destruct (H i (mkStepNode s (childrenUpTo steps (length steps) i))).
    + apply BuildGraph_node. eauto.
    + simpl. now apply elem_of_childrenUpTo.
Qed.

(** X21: the roots, and the children of every node, come in the order of
    the steps: their positions are strictly increasing. *)
Theorem BuildGraph_input_order (steps : list Step) :
  StronglySorted lt (roots (BuildGraph steps))
  /\ Forall (fun n => StronglySorted lt (Children n)) (nodes (BuildGraph steps)).
Proof.
  split.
  - rewrite BuildGraph_closed. simpl. apply filter_seq_sorted.
  - apply Forall_lookup. intros i n (s & _ & ->)%BuildGraph_node.
    simpl. apply filter_seq_sorted.
Qed.

(** X22: when no step feeds, through any number of steps, itself, the
    forest holds all steps given, and no other. *)
Theorem BuildGraph_holds_all_steps (steps : list Step) (rank : Step -> nat) :
  (forall t s, t ∈ steps -> s ∈ steps -> feedsb t s = true -> rank t < rank s) ->
  forall s, forestSteps (BuildGraph steps) s <-> s ∈ steps.
Proof.
  intros Hrank s. rewrite forestSteps_BuildGraph. split.
  - apply fedFromRoot_elem.
  - now apply (fedFromRoot_ranked steps rank).
Qed.

Lemma BuildGraph_holds_all_steps_witness :
  let steps := [unitStep; srcStep] in
  let rank := fun s : Step => length (Requires s) in
  (forall t s, t ∈ steps -> s ∈ steps -> feedsb t s = true -> rank t < rank s)
  /\ forall s, forestSteps (BuildGraph steps) s <-> s ∈ steps.
Proof.
  intros steps rank.
  assert (H : forall t s, t ∈ steps -> s ∈ steps ->
                          feedsb t s = true -> rank t < rank s).
  { intros t s Ht Hs Hb.
    apply list_elem_of_In in Ht. apply list_elem_of_In in Hs. simpl in Ht, Hs.
    destruct Ht as [<- | [<- | []]]; destruct Hs as [<- | [<- | []]];
      first [discriminate Hb | unfold rank; simpl; lia]. }
  split; [exact H | exact (BuildGraph_holds_all_steps steps rank H)].
Defined.

(** ** The targeted steps and the unmatched names *)

Lemma requestedAt_all (steps : list Step) (i : nat) (s : Step) :
  steps !! i = Some s -> requestedAt steps (Name <$> steps) i.
Proof.
  intros Hs. exists s. split; [exact Hs |].
  rewrite <- (take_drop i steps) at 2.
  rewrite (drop_S _ _ _ Hs), fmap_app, occurrences_app. simpl.
  rewrite String.eqb_refl. lia.
Qed.

Lemma collectTargeted_all (steps : list Step) (cs : list bool) :
  forall (k : nat) (targeted : list Step),
  (forall i, i < length cs -> cs !! i = Some true) ->
  length cs = length (drop k steps) ->
  collectTargeted k cs steps targeted = targeted ++ drop k steps.
Proof.
  induction cs as [| c cs IH]; intros k targeted Hall Hlen; simpl in *.
  - symmetry in Hlen. apply length_zero_iff_nil in Hlen.
    now rewrite Hlen, app_nil_r.
  - assert (c = true) as ->.
    { specialize (Hall 0 ltac:(lia)). simpl in Hall. congruence. }
    destruct (lookup_lt_is_Some_2 steps k) as [s Hs].
    { rewrite length_drop in Hlen. lia. }
    rewrite Hs, (drop_S _ _ _ Hs). rewrite IH.
    + now rewrite <- app_assoc.
    + intros i Hi. apply (Hall (S i)). lia.
    + rewrite (drop_S _ _ _ Hs) in Hlen. simpl in Hlen. lia.
Qed.

Lemma collectTargeted_sublist (steps : list Step) (cs : list bool) :
  forall (k : nat) (targeted : list Step),
  exists picked,
    collectTargeted k cs steps targeted = targeted ++ picked
    /\ picked `sublist_of` drop k steps.
Proof.
  induction cs as [| c cs IH]; intros k targeted; simpl.
  - exists []. split; [now rewrite app_nil_r | apply sublist_nil_l].
  - destruct (steps !! k) as [s |] eqn:Hs.
    + rewrite (drop_S _ _ _ Hs). destruct c.
      * destruct (IH (S k) (targeted ++ [s])) as (picked & -> & Hsub).
        exists (s :: picked). split; [now rewrite <- app_assoc |].
        now apply sublist_skip.
      * destruct (IH (S k) targeted) as (picked & -> & Hsub).
        exists picked. split; [reflexivity | now apply sublist_cons].
    + assert (collectTargeted (S k) cs steps
                (if c then targeted else targeted)
              = collectTargeted (S k) cs steps targeted) as -> by now destruct c.
      destruct (IH (S k) targeted) as (picked & -> & Hsub).
      exists picked. split; [reflexivity |].
      apply lookup_ge_None in Hs.
      rewrite drop_ge in Hsub by lia. now rewrite drop_ge by lia.
Qed.

Lemma matchStep_names_sublist (i : nat) (s : Step) (m : Matching) :
  names (matchStep i s m) `sublist_of` names m.
Proof.
  unfold matchStep. destruct (findName (names m) (Name s)) as [j |]; simpl.
  - rewrite <- delete_take_drop. apply sublist_delete.
  - reflexivity.
Qed.

Lemma matchLoop_names_sublist (rest : list Step) :
  forall (k : nat) (m : Matching),
  names (matchLoop k rest m) `sublist_of` names m.
Proof.
  induction rest as [| s rest IH]; intros k m; simpl; [reflexivity |].
  etransitivity; [apply IH | apply matchStep_names_sublist].
Qed.

(** X23: with the names of all steps requested, each as often as steps
    bear it and in their order, [BuildPartialGraph] returns the forest
    of [BuildGraph] over all steps. *)
Theorem BuildPartialGraph_all_names (steps : list Step) :
  BuildPartialGraph steps (Name <$> steps) = Some (Built (BuildGraph steps)).
Proof.
  destruct steps as [| s0 steps'] eqn:Esteps; [reflexivity |].
  rewrite <- Esteps.
  assert (Hne : Name <$> steps <> []) by (rewrite Esteps; discriminate).
  destruct (BuildPartialGraph_run steps (Name <$> steps) Hne) as (m & Hm & Hrun).
  assert (Hnil : names m = []).
  { apply (unmatched_nil_iff steps (Name <$> steps) m Hm). intros n. lia. }
  rewrite Hnil in Hrun. destruct Hrun as (cs & req & Hsel & _ & ->).
  do 2 f_equal.
  rewrite collectTargeted_all; [now rewrite drop_0 | |].
  - intros i Hi. rewrite (selection_length _ _ _ _ Hsel) in Hi.
    apply lookup_lt_is_Some in Hi as [s Hs].
    apply isCandidate_true, (selection_requested _ _ _ _ Hsel).
    now apply (requestedAt_all steps i s).
  - rewrite drop_0. apply (selection_length _ _ _ _ Hsel).
Qed.

(** X24: with names that all match, the steps [BuildPartialGraph] hands
    to [BuildGraph] are steps of the input, in the order of the input. *)
Theorem BuildPartialGraph_targeted_in_order (steps : list Step)
    (requested : list string) :
  requested <> [] ->
  (forall n, occurrences n requested <= occurrences n (Name <$> steps)) ->
  exists targeted,
    BuildPartialGraph steps requested = Some (Built (BuildGraph targeted))
    /\ targeted `sublist_of` steps.
Proof.
  intros Hne Hmatch.
  destruct (BuildPartialGraph_run steps requested Hne) as (m & Hm & Hrun).
  apply (unmatched_nil_iff steps requested m Hm) in Hmatch.
  rewrite Hmatch in Hrun. destruct Hrun as (cs & req & _ & _ & Hrun).
  exists (collectTargeted 0 cs steps []). split; [exact Hrun |].
  destruct (collectTargeted_sublist steps cs 0 []) as (picked & -> & Hsub).
  now rewrite drop_0 in Hsub.
Qed.

Lemma BuildPartialGraph_targeted_in_order_witness :
  let steps := [selfFed; srcStep; unitStep] in
  let requested := ["unit"%string] in
  requested <> []
  /\ (forall n, occurrences n requested <= occurrences n (Name <$> steps))
  /\ exists targeted,
       BuildPartialGraph steps requested = Some (Built (BuildGraph targeted))
       /\ targeted `sublist_of` steps.
Proof.
  intros steps requested.
  assert (Hne : requested <> []) by discriminate.
  assert (Hmatch : forall n, occurrences n requested
                             <= occurrences n (Name <$> steps)).
  { intros n. simpl.
    destruct (String.eqb "unit" n), (String.eqb "src" n), (String.eqb "loop" n); lia. }
  split; [exact Hne |]. split; [exact Hmatch |].
  exact (BuildPartialGraph_targeted_in_order steps requested Hne Hmatch).
Defined.

(** X25: the expansion loop of [BuildPartialGraph] ends within one pass
    more than there are steps: when it is cut off after any larger number
    of passes, the call has returned, with the result of the call that
    is not cut off. *)
Theorem BuildPartialGraph_passes_bounded (steps : list Step)
    (requested : list string) (fuel : nat) :
  length steps < fuel ->
  exists result,
    BuildPartialGraphFuel fuel steps requested = Some result
    /\ BuildPartialGraph steps requested = Some result.
Proof.
  intros Hfuel. destruct (BuildPartialGraph_returns steps requested) as (r & Hr).
  exists r. split; [| exact Hr].
  now rewrite BuildPartialGraphFuel_enough.
Qed.

Lemma BuildPartialGraph_passes_bounded_witness :
  let steps := [unitStep; srcStep] in
  length steps < 7
  /\ exists result,
       BuildPartialGraphFuel 7 steps ["unit"%string] = Some result
       /\ BuildPartialGraph steps ["unit"%string] = Some result.
Proof.
  intros steps.
  assert (H : length steps < 7) by (simpl; lia).
  split; [exact H |].
  exact (BuildPartialGraph_passes_bounded steps ["unit"%string] 7 H).
Defined.

(** X26: with names that all match, the root steps of the returned
    forest are the wanted steps that are root steps of the forest of
    [BuildGraph] over all steps. *)
Theorem BuildPartialGraph_roots (steps : list Step) (requested : list string) :
  requested <> [] ->
  (forall n, occurrences n requested <= occurrences n (Name <$> steps)) ->
  exists targeted,
    BuildPartialGraph steps requested = Some (Built (BuildGraph targeted))
    /\ forall s, rootSteps (BuildGraph targeted) s <->
                 wanted steps requested s /\ rootSteps (BuildGraph steps) s.
Proof.
  intros Hne Hmatch.
  destruct (BuildPartialGraph_run steps requested Hne) as (m & Hm & Hrun).
  apply (unmatched_nil_iff steps requested m Hm) in Hmatch.
  rewrite Hmatch in Hrun. destruct Hrun as (cs & req & Hsel & Hsat & Hrun).
  pose proof (fun s => targeted_wanted steps requested cs req s Hsel Hsat) as Ht.
  exists (collectTargeted 0 cs steps []). split; [exact Hrun |].
  intros s. rewrite !rootSteps_BuildGraph. split.
  - intros [Hs Hroot]. apply Ht in Hs as Hw.
    split; [exact Hw |]. split; [now apply wanted_elem in Hw |].
    intros t Hin. destruct (feedsb t s) eqn:Hb; [| reflexivity].
    rewrite <- Hb. apply Hroot, Ht.
    now apply (wanted_feeder steps requested s t).
  - intros (Hw & _ & Hroot). split; [now apply Ht |].
    intros t Hin. apply Hroot. apply Ht in Hin. now apply wanted_elem in Hin.
Qed.

Lemma BuildPartialGraph_roots_witness :
  let steps := [selfFed; unitStep; mkStep "lint" [] []] in
  let requested := ["lint"%string] in
  requested <> []
  /\ (forall n, occurrences n requested <= occurrences n (Name <$> steps))
  /\ exists targeted,
       BuildPartialGraph steps requested = Some (Built (BuildGraph targeted))
       /\ forall s, rootSteps (BuildGraph targeted) s <->
                    wanted steps requested s /\ rootSteps (BuildGraph steps) s.
Proof.
  intros steps requested.
  assert (Hne : requested <> []) by discriminate.
  assert (Hmatch : forall n, occurrences n requested
                             <= occurrences n (Name <$> steps)).
  { intros n. simpl.
    destruct (String.eqb "unit" n), (String.eqb "lint" n), (String.eqb "loop" n); lia. }
  split; [exact Hne |]. split; [exact Hmatch |].
  exact (BuildPartialGraph_roots steps requested Hne Hmatch).
Defined.

(** X27: the names listed as not found by the error of
    [BuildPartialGraph] are requested names, in the order in which they
    were requested. *)
Theorem BuildPartialGraph_unmatched_in_order (steps : list Step)
    (requested : list string) (message : string) :
  BuildPartialGraph steps requested = Some (NotFound message) ->
  exists unmatched,
    message = notFoundMessage unmatched (Name <$> steps)
    /\ unmatched <> []
    /\ unmatched `sublist_of` requested.
Proof.
  unfold BuildPartialGraph, BuildPartialGraphFuel.
  destruct requested as [| n0 rest]; [discriminate |].
  pose proof (matchLoop_matched steps (n0 :: rest)) as Hm.
  pose proof (matchLoop_names_sublist steps 0
                (mkMatching (replicate (length steps) false) [] (n0 :: rest) []))
    as Hsub.
  destruct (matchLoop 0 steps _) as [cs req unmatched known].
  destruct Hm as [_ _ _ Hall _]. simpl in Hall, Hsub. rewrite firstn_all in Hall.
  destruct unmatched as [| u unmatched].
  - destruct (expandLoop _ steps cs req) as [[cs' req'] |]; discriminate.
  - intros [= <-]. exists (u :: unmatched).
    split; [now rewrite Hall |]. split; [discriminate | exact Hsub].
Qed.

Lemma BuildPartialGraph_unmatched_in_order_witness :
  let steps := [srcStep; unitStep] in
  let requested := ["e2e"; "unit"; "images"]%string in
  let message :=
    ("the following names were not found in the config or were duplicates: "
     ++ "e2e, images (from src, unit)")%string in
  BuildPartialGraph steps requested = Some (NotFound message)
  /\ exists unmatched,
       message = notFoundMessage unmatched (Name <$> steps)
       /\ unmatched `sublist_of` requested.
Proof.
  intros steps requested message.
  assert (H : BuildPartialGraph steps requested = Some (NotFound message))
    by reflexivity.
  split; [exact H |].
  destruct (BuildPartialGraph_unmatched_in_order steps requested message H)
    as (unmatched & Hmsg & _ & Hsub).
  exists unmatched. split; [exact Hmsg | exact Hsub].
Defined.

(** ** Links of releases *)

(** X28: the link of all images of a release satisfies the link of all
    images, and the link of any one tag, of that release and of no other
    release. *)
Theorem ReleaseImagesLink_satisfies (StableImageStream LatestReleaseName : string)
    (name name' tag : string) :
  (SatisfiedBy (ReleaseImagesLink StableImageStream LatestReleaseName name)
               (ReleaseImagesLink StableImageStream LatestReleaseName name') = true
   <-> name = name')
  /\ (SatisfiedBy (ReleaseImageTagLink StableImageStream LatestReleaseName name tag)
                  (ReleaseImagesLink StableImageStream LatestReleaseName name') = true
      <-> name = name').
Proof.
  unfold ReleaseImagesLink, ReleaseImageTagLink. simpl.
  rewrite String.eqb_eq.
  assert (H : ReleaseStreamFor StableImageStream LatestReleaseName name
              = ReleaseStreamFor StableImageStream LatestReleaseName name'
              <-> name = name'); [| now split].
  split; [| now intros ->]. intros H.
  rewrite <- (release_name_read_back StableImageStream LatestReleaseName name).
  rewrite <- (release_name_read_back StableImageStream LatestReleaseName name').
  now rewrite H.
Qed.

(** ** The order of the requested names *)

Lemma occurrences_Permutation (n : string) (l k : list string) :
  l ≡ₚ k -> occurrences n l = occurrences n k.
Proof.
  induction 1 as [| x l k _ IH | x y l | l k j _ IH1 _ IH2]; simpl;
    [reflexivity | now rewrite IH | lia | congruence].
Qed.

Lemma wantedAt_names (steps : list Step) (requested requested' : list string)
    (i : nat) :
  (forall n, occurrences n requested = occurrences n requested') ->
  wantedAt steps requested i -> wantedAt steps requested' i.
Proof.
  intros Hocc. induction 1 as [i (s & Hs & Hlt) | i j _ IH Hfeeds].
  - apply wanted_requested. exists s. split; [exact Hs |]. now rewrite <- Hocc.
  - now apply (wanted_feeds _ _ i j).
Qed.

Lemma saturated_selection_unique (steps : list Step)
    (requested requested' : list string)
    (cs cs' : list bool) (req req' : list StepLink) :
  (forall n, occurrences n requested = occurrences n requested') ->
  selection steps requested cs req -> saturatedFrom steps 0 cs req ->
  selection steps requested' cs' req' -> saturatedFrom steps 0 cs' req' ->
  cs = cs'.
Proof.
  intros Hocc Hsel Hsat Hsel' Hsat'.
  assert (Hiff : forall i, isCandidate cs i = true <-> isCandidate cs' i = true).
  { intros i. split; intros H.
    - apply (saturated_complete steps requested' cs' req' i Hsel' Hsat').
      apply (wantedAt_names steps requested requested' i Hocc).
      now apply (selection_wanted _ _ _ _ Hsel).
    - apply (saturated_complete steps requested cs req i Hsel Hsat).
      apply (wantedAt_names steps requested' requested i); [now intros n |].
      now apply (selection_wanted _ _ _ _ Hsel'). }
  apply list_eq. intros i. specialize (Hiff i). unfold isCandidate in Hiff.
  destruct (decide (i < length steps)) as [Hi | Hi].
  - destruct (lookup_lt_is_Some_2 cs i) as [b Hb];
      [now rewrite (selection_length _ _ _ _ Hsel) |].
    destruct (lookup_lt_is_Some_2 cs' i) as [b' Hb'];
      [now rewrite (selection_length _ _ _ _ Hsel') |].
    rewrite Hb, Hb' in *. simpl in Hiff. f_equal.
    destruct b, b'; try reflexivity; [symmetry |]; now apply Hiff.
  - rewrite !lookup_ge_None_2; [reflexivity | |].
    + rewrite (selection_length _ _ _ _ Hsel'). lia.
    + rewrite (selection_length _ _ _ _ Hsel). lia.
Qed.

(** X29: the forest [BuildPartialGraph] returns does not depend on the
    order of the names: for names that all match, the same names in
    another order give the same result. *)
Theorem BuildPartialGraph_names_order (steps : list Step)
    (requested requested' : list string) :
  requested ≡ₚ requested' ->
  (forall n, occurrences n requested <= occurrences n (Name <$> steps)) ->
  BuildPartialGraph steps requested = BuildPartialGraph steps requested'.
Proof.
  intros Hperm Hmatch.
  pose proof (fun n => occurrences_Permutation n _ _ Hperm) as Hocc.
  destruct requested as [| n0 rest] eqn:E.
  { apply Permutation_nil_l in Hperm. now rewrite Hperm. }
  rewrite <- E in *.
  assert (Hne : requested <> []) by (rewrite E; discriminate).
  assert (Hne' : requested' <> []).
  { intros ->. apply Permutation_nil_r in Hperm. contradiction. }
  destruct (BuildPartialGraph_run steps requested Hne) as (m & Hm & Hrun).
  destruct (BuildPartialGraph_run steps requested' Hne') as (m' & Hm' & Hrun').
  assert (Hnil : names m = []) by now apply (unmatched_nil_iff steps requested m Hm).
  assert (Hnil' : names m' = []).
  { apply (unmatched_nil_iff steps requested' m' Hm'). intros n.
    rewrite <- Hocc. apply Hmatch. }
  rewrite Hnil in Hrun. rewrite Hnil' in Hrun'.
  destruct Hrun as (cs & req & Hsel & Hsat & ->).
  destruct Hrun' as (cs' & req' & Hsel' & Hsat' & ->).
  now rewrite (saturated_selection_unique steps requested requested'
                 cs cs' req req' Hocc Hsel Hsat Hsel' Hsat').
Qed.

Lemma BuildPartialGraph_names_order_witness :
  let steps := [srcStep; unitStep; mkStep "lint" [] []] in
  let requested := ["unit"; "lint"]%string in
  let requested' := ["lint"; "unit"]%string in
  requested ≡ₚ requested'
  /\ (forall n, occurrences n requested <= occurrences n (Name <$> steps))
  /\ BuildPartialGraph steps requested = BuildPartialGraph steps requested'.
Proof.
  intros steps requested requested'.
  assert (Hperm : requested ≡ₚ requested') by apply Permutation_swap.
  assert (Hmatch : forall n, occurrences n requested
                             <= occurrences n (Name <$> steps)).
  { intros n. simpl.
    destruct (String.eqb "unit" n), (String.eqb "lint" n), (String.eqb "src" n); lia. }
  split; [exact Hperm |]. split; [exact Hmatch |].
  exact (BuildPartialGraph_names_order steps requested requested' Hperm Hmatch).
Defined.
